(** * comfyui-sdk: prompt builder, backend client and client pool

    A shallow embedding of the parts of the SDK that the specification
    makes claims about:

    - [Pool]    : [ComfyPool] (pool.ts): the weighted job queue, client
                  selection in the three queue modes and the failover loop
                  of [run];
    - [Client]  : [ComfyApi] (client.ts): binary frame decoding, the
                  reconnection back-off, [destroy], [fetchApi] and the
                  [lastActivity] time stamp;
    - [Builder] : [PromptBuilder] (prompt-builder.ts): the builder objects,
                  their clone discipline and the dotted-path writes.

    JavaScript objects that are mutated in place and can be reached through
    more than one reference live in an explicit store; everything else is
    plain data. *)

From Stdlib Require Import ZArith QArith Qminmax Lqa Lia Bool.
From Stdlib.Strings Require Import Byte Ascii.
From stdpp Require Import gmap strings list fin_maps sorting.

Set Default Proof Using "Type".
Local Open Scope Z_scope.

(** ** Array helpers shared by the modules *)

(** [Array.prototype.findIndex]: position of the first element satisfying
    the predicate; [None] stands for the result [-1]. *)
Fixpoint findIndex {A : Type} (p : A -> bool) (l : list A) : option nat :=
  match l with
  | [] => None
  | x :: l' => if p x then Some 0%nat else S <$> findIndex p l'
  end.

(** [arr.splice(idx, 0, item)]. *)
Definition splice_in {A : Type} (idx : nat) (item : A) (l : list A) : list A :=
  take idx l ++ item :: drop idx l.

(** [arr.includes(s)] on an array of strings. *)
Definition includes (l : list string) (s : string) : bool :=
  bool_decide (s ∈ l).

(** * The client pool (pool.ts) *)

Module Pool.

(** [EQueueMode]. *)
Inductive EQueueMode := PICK_ZERO | PICK_LOWEST | PICK_ROUTINE.

(** One entry of [clientStates].  [locked] is declared [string | boolean]
    but only ever assigned [true] or [false]. *)
Record ClientState := mkClientState {
  id : string;
  queueRemaining : Z;
  locked : bool;
  online : bool
}.

(** [JobItem].  The closure [fn] is represented by a label, which is enough
    to tell apart the jobs that were submitted. *)
Record JobItem := mkJobItem {
  weight : Z;
  includeClientIds : option (list string);
  excludeClientIds : option (list string);
  fn : nat
}.

(** The mutable fields of [ComfyPool] that selection and queueing use.
    [clients] is kept index-aligned with [clientStates], so a client is
    identified by its index; [routineIdx] is a JavaScript number that
    becomes [NaN] (here [None]) after a remainder by zero. *)
Record PoolState := mkPool {
  clientStates : list ClientState;
  mode : EQueueMode;
  jobQueue : list JobItem;
  routineIdx : option nat;
  maxQueueSize : Z
}.

(** *** Job queue *)

(** [pushJobByWeight]: the new queue and the returned number (the new
    length after [push], or the insertion index after [splice]). *)
Definition pushJobByWeight (q : list JobItem) (item : JobItem)
  : list JobItem * nat :=
  match findIndex (fun job => weight item <? weight job) q with
  | None => (q ++ [item], length (q ++ [item]))
  | Some idx => (splice_in idx item q, idx)
  end.

Inductive ClaimError := JobQueueLimitReached.

(** The synchronous part of [claim]: the size check, the default weight
    and the insertion.  Returns the queue, [jobIdx] and [inputWeight] of the
    [add_job] event. *)
Definition claim (p : PoolState) (f : nat) (w : option Z)
    (includeIds excludeIds : option (list string))
  : ClaimError + (PoolState * nat * Z) :=
  if Z.of_nat (length (jobQueue p)) >=? maxQueueSize p then inl JobQueueLimitReached
  else
    let inputWeight := match w with
                       | None => Z.of_nat (length (jobQueue p))
                       | Some w => w
                       end in
    let '(q, idx) := pushJobByWeight (jobQueue p)
                       (mkJobItem inputWeight includeIds excludeIds f) in
    inr (mkPool (clientStates p) (mode p) q (routineIdx p) (maxQueueSize p),
         idx, inputWeight).

(** [this.jobQueue.shift()] as used by [processJobQueue]. *)
Definition shift (p : PoolState) : option JobItem * PoolState :=
  match jobQueue p with
  | [] => (None, p)
  | job :: q =>
      (Some job, mkPool (clientStates p) (mode p) q (routineIdx p) (maxQueueSize p))
  end.

(** *** Client selection *)

(** The filter predicate of [getAvailableClient]. *)
Definition accepted (includeIds excludeIds : option (list string))
    (c : ClientState) : bool :=
  if negb (online c) then false
  else match includeIds with
       | Some (i :: inc) => includes (i :: inc) (id c)
       | _ =>
           match excludeIds with
           | Some (e :: exc) => negb (includes (e :: exc) (id c))
           | _ => true
           end
       end.

Definition MAX_SAFE_INTEGER : Z := 9007199254740991.

(** [Math.min(...xs)] for a non-empty argument list. *)
Definition minimum (x : Z) (xs : list Z) : Z := foldr Z.min x xs.

(** The [switch (this.mode)] of [getAvailableClient]: the index into
    [acceptedClients] ([None] for [-1] and for [NaN]) and the new
    [routineIdx]. *)
Definition pickIndex (m : EQueueMode) (r : option nat)
    (acceptedClients : list ClientState) : option nat * option nat :=
  match m with
  | PICK_ZERO =>
      (findIndex (fun c => (queueRemaining c =? 0) && negb (locked c)
                           && negb (String.eqb (id c) "")) acceptedClients, r)
  | PICK_LOWEST =>
      let queueSizes :=
        map (fun st => if online st then queueRemaining st else MAX_SAFE_INTEGER)
            acceptedClients in
      (match queueSizes with
       | [] => None
       | x :: xs => findIndex (Z.eqb (minimum x xs)) queueSizes
       end, r)
  | PICK_ROUTINE =>
      match r, length acceptedClients with
      | Some i, S n => (Some (i mod S n)%nat, Some ((i + 1) mod S n)%nat)
      | _, _ => (None, None)
      end
  end.

(** [arr[i].locked = true]. *)
Definition lock (c : ClientState) : ClientState :=
  mkClientState (id c) (queueRemaining c) true (online c).

(** One turn of the [while (true)] loop of [getAvailableClient]: either a
    client index is returned (and that client state is locked), or the loop
    sleeps and polls again. *)
Definition selectOnce (p : PoolState) (includeIds excludeIds : option (list string))
  : PoolState * option nat :=
  let acceptedClients := filter (fun c => accepted includeIds excludeIds c = true)
                                (clientStates p) in
  let '(index, r) := pickIndex (mode p) (routineIdx p) acceptedClients in
  match index ≫= (fun i => acceptedClients !! i) with
  | Some a =>
      match findIndex (fun c => String.eqb (id c) (id a)) (clientStates p) with
      | Some trueIdx =>
          (mkPool (alter lock trueIdx (clientStates p)) (mode p) (jobQueue p) r
                  (maxQueueSize p), Some trueIdx)
      | None => (mkPool (clientStates p) (mode p) (jobQueue p) r (maxQueueSize p), None)
      end
  | None => (mkPool (clientStates p) (mode p) (jobQueue p) r (maxQueueSize p), None)
  end.

(** *** Failover loop of [run] *)

(** The [options] argument of [run]; an absent [options] object is the
    record with every field absent. *)
Record RunOptions := mkRunOptions {
  enableFailover : option bool;
  maxRetries : option Z;
  retryDelay : option Z
}.

(** [x || d] for an optional number: [undefined] and [0] are falsy. *)
Definition or_default (x : option Z) (d : Z) : Z :=
  match x with
  | Some v => if v =? 0 then d else v
  | None => d
  end.

(** [options?.enableFailover !== false]. *)
Definition effEnableFailover (o : RunOptions) : bool :=
  match enableFailover o with
  | Some false => false
  | _ => true
  end.

Definition effRetryDelay (o : RunOptions) : Z := or_default (retryDelay o) 1000.

Definition onlineClients (p : PoolState) : list ClientState :=
  filter (fun c => online c = true) (clientStates p).

Definition effMaxRetries (o : RunOptions) (p : PoolState) : Z :=
  or_default (maxRetries o) (Z.of_nat (length (onlineClients p))).

(** What a run does that can be observed: the events it dispatches, the
    timer it sets, and each call of the user's job.  [Executing] records
    the call [fn(client, idx)]: the index and id of the client handed to
    the job, the [excludeIds] array that [getAvailableClient] was given for
    it, and the attempt number. *)
Inductive RunEvent :=
| AddJob (jobIdx : nat) (inputWeight : Z)
| Executing (clientIdx : nat) (clientId : string) (excludeIds : list string)
            (attempt : Z)
| Executed (clientIdx : nat)
| ExecutionError (clientIdx : nat) (willRetry : bool) (attempt maxRetries : Z)
| SetTimeout (ms : Z).

(** How the promise returned by [run] stands when the simulation stops.
    [Pending] : [getAvailableClient] is still polling for a client.
    [OtherJob] : the head of the queue was a job of another run. *)
Inductive RunOutcome :=
| Resolved (clientIdx : nat)
| Rejected
| Pending
| OtherJob
| OutOfFuel.

Definition withStates (p : PoolState) (cs : list ClientState) : PoolState :=
  mkPool cs (mode p) (jobQueue p) (routineIdx p) (maxQueueSize p).

(** [getAvailableClient] with the default [timeout = -1]: the polling loop.
    Between two polls the event handlers of [initializeClient] may rewrite
    the client states in any way; [world t] is what they did before poll
    number [t].  [polls] bounds how long the simulation watches the loop. *)
Fixpoint getAvailableClient (polls : nat)
    (world : nat -> list ClientState -> list ClientState) (t : nat)
    (p : PoolState) (includeIds excludeIds : option (list string))
  : PoolState * option nat * nat :=
  match polls with
  | O => (p, None, t)
  | S k =>
      match selectOnce (withStates p (world t (clientStates p)))
                       includeIds excludeIds with
      | (p', Some i) => (p', Some i, S t)
      | (p', None) => getAvailableClient k world (S t) p' includeIds excludeIds
      end
  end.

(** [tryExecute] of [run], for a pool whose queue holds no job of another
    run.  [job clientIdx attempt] tells whether the user's job resolves
    ([true]) or throws.  [attempt] is the counter before the increment; the
    closure [fn] made by this call is labelled by the attempt number.  The
    id pushed on [excludedIds] is the one recorded for the selected client
    in [clientStates]. *)
Fixpoint tryExecute (fuel polls : nat)
    (world : nat -> list ClientState -> list ClientState)
    (job : nat -> Z -> bool)
    (w : option Z) (includeIds : option (list string))
    (failover : bool) (maxR delay : Z) (onlineLen : nat)
    (t : nat) (p : PoolState) (excludedIds : list string) (attempt : Z)
  : list RunEvent * RunOutcome :=
  match fuel with
  | O => ([], OutOfFuel)
  | S fuel' =>
      let attempt := attempt + 1 in
      match claim p (Z.to_nat attempt) w includeIds (Some excludedIds) with
      | inl _ => ([], Rejected)
      | inr (p1, jobIdx, inputWeight) =>
          match shift p1 with
          | (Some j, p2) =>
              if negb (fn j =? Z.to_nat attempt)%nat
              then ([AddJob jobIdx inputWeight], OtherJob)
              else
                match getAvailableClient polls world t p2
                        (includeClientIds j) (excludeClientIds j) with
                | (p3, Some idx, t') =>
                    let clientId := default ""%string (id <$> clientStates p3 !! idx) in
                    let called := [AddJob jobIdx inputWeight;
                                   Executing idx clientId excludedIds attempt] in
                    if job idx attempt
                    then (called ++ [Executed idx], Resolved idx)
                    else if failover && (attempt <? maxR)
                              && (length excludedIds <? onlineLen)%nat
                    then
                      let '(evs, out) :=
                        tryExecute fuel' polls world job w includeIds failover
                                   maxR delay onlineLen t' p3
                                   (excludedIds ++ [clientId]) attempt in
                      (called ++ ExecutionError idx true attempt maxR
                              :: SetTimeout delay :: evs, out)
                    else (called ++ [ExecutionError idx false attempt maxR], Rejected)
                | (_, None, _) => ([AddJob jobIdx inputWeight], Pending)
                end
          | (None, _) => ([AddJob jobIdx inputWeight], Pending)
          end
      end
  end.

(** [run(job, weight, clientFilter, options)]. *)
Definition run (fuel polls : nat)
    (world : nat -> list ClientState -> list ClientState)
    (job : nat -> Z -> bool) (p : PoolState)
    (w : option Z) (includeIds excludeIds : option (list string))
    (o : RunOptions) : list RunEvent * RunOutcome :=
  let failover := effEnableFailover o in
  let delay := effRetryDelay o in
  let excludedIds := match excludeIds with Some l => l | None => [] end in
  let onlineLen := length (onlineClients p) in
  let maxR := effMaxRetries o p in
  tryExecute fuel polls world job w includeIds failover maxR delay onlineLen
             0%nat p excludedIds 0.

(** The calls of the user's job in a trace. *)
Definition isExecuting (e : RunEvent) : bool :=
  match e with Executing _ _ _ _ => true | _ => false end.

Definition invocations (evs : list RunEvent) : nat :=
  length (List.filter isExecuting evs).


Definition invokedIds (evs : list RunEvent) : list string :=
  omap (fun e => match e with Executing _ c _ _ => Some c | _ => None end) evs.

(** Every call of the job was handed the exclude list accumulated so far
    ([E], then [E] extended by the id of each client the job was called
    on), and a client whose id is not in that list. *)
Fixpoint respectsExcluded (E : list string) (evs : list RunEvent) : Prop :=
  match evs with
  | [] => True
  | Executing _ clientId excludeIds _ :: rest =>
      excludeIds = E /\ (clientId ∉ E) /\ respectsExcluded (E ++ [clientId]) rest
  | _ :: rest => respectsExcluded E rest
  end.

(** *** Histories of the job queue *)

(** The two ways the queue changes: the insertion done by [claim] and the
    [shift] of [processJobQueue]. *)
Inductive QueueOp :=
| Enqueue (w : option Z) (includeIds excludeIds : option (list string))
| Dequeue.

(** The [n]-th operation of a history; an enqueued job gets the label [n],
    so labels tell the order of submission.  A refused [claim] leaves the
    pool as it is. *)
Definition applyOp (p : PoolState) (n : nat) (op : QueueOp) : PoolState :=
  match op with
  | Enqueue w inc exc =>
      match claim p n w inc exc with
      | inr (p', _, _) => p'
      | inl _ => p
      end
  | Dequeue => (shift p).2
  end.

Fixpoint applyOps (p : PoolState) (n : nat) (ops : list QueueOp) : PoolState :=
  match ops with
  | [] => p
  | op :: ops' => applyOps (applyOp p n op) (S n) ops'
  end.

(** [a] may stand before [b] in the queue: lower weight, or the same weight
    and submitted earlier. *)
Definition before (a b : JobItem) : Prop :=
  weight a < weight b \/ (weight a = weight b /\ (fn a < fn b)%nat).

(** The invariant of the queue under any history: strongly sorted by
    weight and then by submission, all labels below the next one. *)
Definition queueInv (n : nat) (q : list JobItem) : Prop :=
  StronglySorted before q /\ Forall (fun j => (fn j < n)%nat) q.

(** *** Event handlers of [initializeClient] *)

(** The client events that [initializeClient] listens to.  [EvStatus]
    carries [status.exec_info.queue_remaining], or [None] when the frame
    has no [exec_info]. *)
Inductive ClientEvent :=
| EvStatus (queue_remaining : option Z)
| EvTerminal
| EvDisconnected
| EvReconnected
| EvExecutionSuccess
| EvExecutionInterrupted
| EvExecutionError
| EvQueueError
| EvAuthError
| EvAuthSuccess
| EvConnectionError.

(** What the pool dispatches from a handler. *)
Inductive PoolEvent :=
| PConnected
| PHaveJob (remain : Z)
| PIdle
| PTerminal
| PDisconnected
| PReconnected
| PExecutionInterrupted
| PExecutionError
| PAuthError
| PAuthSuccess
| PConnectionError.

(** The handler of one event, run on the state object [states] that
    [initializeClient] captured.  In the [status] handler the assignment of
    [queueRemaining] reads [exec_info.queue_remaining] without a guard, so a
    frame without [exec_info] ends the handler there with a [TypeError]:
    [online] is already set, the rest is not reached. *)
Definition handleEvent (m : EQueueMode) (ev : ClientEvent) (states : ClientState)
  : ClientState * list PoolEvent :=
  match ev with
  | EvStatus info =>
      let connected := if online states then [] else [PConnected] in
      match info with
      | None =>
          (mkClientState (id states) (queueRemaining states) (locked states) true,
           connected)
      | Some q =>
          let jobs :=
            if q =? queueRemaining states then []
            else (if 0 <? q then [PHaveJob (queueRemaining states)] else [])
                 ++ (if q =? 0 then [PIdle] else []) in
          (mkClientState (id states) q
             (match m with PICK_ZERO => locked states | _ => false end) true,
           connected ++ jobs)
      end
  | EvTerminal => (states, [PTerminal])
  | EvDisconnected =>
      (mkClientState (id states) (queueRemaining states) false false, [PDisconnected])
  | EvReconnected =>
      (mkClientState (id states) (queueRemaining states) false true, [PReconnected])
  | EvExecutionSuccess =>
      (mkClientState (id states) (queueRemaining states) false (online states), [])
  | EvExecutionInterrupted =>
      (mkClientState (id states) (queueRemaining states) false (online states),
       [PExecutionInterrupted])
  | EvExecutionError =>
      (mkClientState (id states) (queueRemaining states) false (online states),
       [PExecutionError])
  | EvQueueError =>
      (mkClientState (id states) (queueRemaining states) false (online states), [])
  | EvAuthError => (states, [PAuthError])
  | EvAuthSuccess => (states, [PAuthSuccess])
  | EvConnectionError => (states, [PConnectionError])
  end.

(** A run of events, each on the client state at the given index. *)
Definition deliver (m : EQueueMode) (evs : list (nat * ClientEvent))
    (cs : list ClientState) : list ClientState :=
  foldl (fun cs e => alter (fun st => (handleEvent m e.2 st).1) e.1 cs) cs evs.

Definition isStatus (ev : ClientEvent) : bool :=
  match ev with EvStatus _ => true | _ => false end.

(** [k] polls of [getAvailableClient] one after the other, nothing else
    happening in between: the results, oldest first, and the final pool. *)
Fixpoint selectMany (k : nat) (p : PoolState)
    (includeIds excludeIds : option (list string)) : list (option nat) * PoolState :=
  match k with
  | O => ([], p)
  | S k' =>
      let '(p', r) := selectOnce p includeIds excludeIds in
      let '(rs, p'') := selectMany k' p' includeIds excludeIds in
      (r :: rs, p'')
  end.

Definition isSetTimeout (e : RunEvent) : bool :=
  match e with SetTimeout _ => true | _ => false end.

End Pool.

(** * The backend client (client.ts) *)

Module Client.

(** *** Binary frames *)

(** [DataView.getUint32(byteOffset)]: four bytes, big-endian; [None] is the
    [RangeError] thrown when the view is too short. *)
Definition getUint32 (buffer : list byte) (byteOffset : nat) : option Z :=
  match drop byteOffset buffer with
  | b0 :: b1 :: b2 :: b3 :: _ =>
      Some (Z.of_N (Byte.to_N b0) * 16777216 + Z.of_N (Byte.to_N b1) * 65536
            + Z.of_N (Byte.to_N b2) * 256 + Z.of_N (Byte.to_N b3))
  | _ => None
  end.

(** What [onmessage] does with a frame besides refreshing [lastActivity]. *)
Inductive Dispatch :=
| b_preview (imageMime : string) (imageBlob : list byte)
| all_and (type : string)            (* "all", then the event named by [type] *)
| all_and_terminal                   (* "all", then "terminal" *)
| ignored                            (* the early [return] *)
| log_unhandled.                     (* "Unhandled message" *)

(** A Node [Buffer] is a view into an [ArrayBuffer]: [byteLength] bytes
    that start at [byteOffset].  [arrayBuffer] is [buffer.buffer], the whole
    [ArrayBuffer], which a pooled or sliced [Buffer] shares with other
    data. *)
Record Buffer := mkBuffer {
  arrayBuffer : list byte;
  byteOffset : nat;
  byteLength : nat
}.

(** The bytes of the frame itself, which is what [buffer.slice] works on. *)
Definition bytes (buffer : Buffer) : list byte :=
  take (byteLength buffer) (drop (byteOffset buffer) (arrayBuffer buffer)).

(** The [event.data instanceof Buffer] branch of [onmessage].  The view is
    [new DataView(buffer.buffer)], with no offset: it starts at byte 0 of
    the [ArrayBuffer], not at the first byte of the frame.  Both reads go
    through [view.getUint32(0)]; the payload is [buffer.slice(8)]. *)
Definition onBinaryMessage (buffer : Buffer) : Dispatch :=
  let view := arrayBuffer buffer in
  match getUint32 view 0 with
  | None => log_unhandled
  | Some eventType =>
      if eventType =? 1 then
        match getUint32 view 0 with
        | None => log_unhandled
        | Some imageType =>
            let imageMime := if imageType =? 2 then "image/png"%string
                             else "image/jpeg"%string in
            b_preview imageMime (drop 8 (bytes buffer))
        end
      else log_unhandled
  end.

(** *** Reconnection back-off *)

Definition MAX_ATTEMPTS : Z := 10.
Definition BASE_DELAY : Q := 1000.
Definition MAX_DELAY : Q := 15000.

(** The delay is computed on doubles.  A double is a rational, and an
    arithmetic operation on doubles is the exact operation followed by the
    rounding [rnd] of its result to a double; [Math.min] and [Math.max]
    return one of their arguments.  What is used of the rounding is that
    it is monotone and that it leaves a double as it is, in particular
    every [z / 2] with [|z| <= 2^53]. *)
Definition rounding (rnd : Q -> Q) : Prop :=
  (forall x y : Q, (x <= y)%Q -> (rnd x <= rnd y)%Q) /\
  (forall z : Z, - 2 ^ 53 <= z <= 2 ^ 53 -> (rnd (z # 2) == z # 2)%Q).

(** The rounding of arithmetic without rounding error. *)
Definition unrounded (x : Q) : Q := x.

(** The literal [0.3]: the double next to it,
    5404319552844595 / 2^54. *)
Definition double_0_3 : Q := 5404319552844595 # 18014398509481984.

(** [Math.min(BASE_DELAY * Math.pow(2, attempt - 1), MAX_DELAY)]. *)
Definition exponentialDelay (rnd : Q -> Q) (attempt : Z) : Q :=
  Qmin (rnd (BASE_DELAY * rnd (Qpower 2 (attempt - 1))))%Q MAX_DELAY.

(** The delay handed to [setTimeout]; [random] is the value of
    [Math.random()].
    [jitter = exponentialDelay * 0.3 * (Math.random() - 0.5)],
    [delay = Math.max(1000, exponentialDelay + jitter)]. *)
Definition retryDelay (rnd : Q -> Q) (attempt : Z) (random : Q) : Q :=
  let e := exponentialDelay rnd attempt in
  let jitter := rnd (rnd (e * double_0_3) * rnd (random - (1 # 2)))%Q in
  Qmax 1000 (rnd (e + jitter))%Q.

Inductive ReconnectPlan :=
| RetryAfter (delay : Q)
| ReconnectionFailed.

(** One call of [tryReconnect]: the incremented counter and what follows
    the attempt. *)
Definition tryReconnect (rnd : Q -> Q) (attempt : Z) (random : Q)
  : Z * ReconnectPlan :=
  let attempt := attempt + 1 in
  (attempt,
   if attempt <? MAX_ATTEMPTS then RetryAfter (retryDelay rnd attempt random)
   else ReconnectionFailed).

(** [reconnectWs]: the chain of [tryReconnect] calls.  [random n] is the
    draw of attempt [n]; [up n] tells whether the timer that follows attempt
    [n] finds the socket open or connecting. *)
Fixpoint reconnectWs (rnd : Q -> Q) (fuel : nat) (random : Z -> Q)
    (up : Z -> bool) (attempt : Z) : list ReconnectPlan :=
  match fuel with
  | O => []
  | S fuel' =>
      let '(a, plan) := tryReconnect rnd attempt (random (attempt + 1)) in
      match plan with
      | RetryAfter _ =>
          plan :: (if up a then [] else reconnectWs rnd fuel' random up a)
      | ReconnectionFailed => [plan]
      end
  end.

(** *** Client state *)

Inductive Credentials :=
| basic (username password : string)
| bearer_token (token : string)
| custom (headers : list (string * string)).

(** Header values; the Base64 text of [btoa] is kept symbolic. *)
Inductive HeaderValue :=
| Literal (s : string)
| Basic_btoa (username password : string)
| Bearer (token : string).

Inductive ReadyState := CONNECTING | OPEN | CLOSING | CLOSED.

(** The socket as far as the client looks at it: whether the client's
    handlers are installed on it, and its [readyState]. *)
Record Socket := mkSocket {
  handlers : bool;
  readyState : ReadyState;
  isReconnect : bool
}.

Record State := mkState {
  apiHost : string;
  clientId : option string;
  credentials : option Credentials;
  lastActivity : Z;
  wsTimer : bool;
  pollingTimer : bool;
  socket : option Socket;
  listeners : list string;
  extDestroyed : bool;
  destroyed : bool
}.

Inductive Event :=
| log (fnName message : string)
| dispatched (d : Dispatch)
| connected
| reconnected
| status
| websocket_unavailable.

(** [getCredentialHeaders]. *)
Definition getCredentialHeaders (c : State) : list (string * HeaderValue) :=
  match credentials c with
  | None => []
  | Some (basic u p) => [("Authorization"%string, Basic_btoa u p)]
  | Some (bearer_token t) => [("Authorization"%string, Bearer t)]
  | Some (custom hs) => map (fun h => (h.1, Literal h.2)) hs
  end.

(** The arguments of the [fetch] call. *)
Record Request := mkRequest {
  url : string;
  method : option string;
  body : option string;
  headers : list (string * HeaderValue);
  mode : string
}.

Inductive ErrorKind := ErrDestroyed.

(** [fetchApi]: the headers of [options] are replaced by the credential
    headers, the mode is set, and [fetch] is called.  No branch of it
    refuses the call. *)
Definition fetchApi (c : State) (route : string)
    (meth body : option string) : ErrorKind + Request :=
  inr (mkRequest (apiHost c +:+ route) meth body (getCredentialHeaders c) "cors").

(** [resetLastActivity], with [now] the value of [Date.now()]. *)
Definition resetLastActivity (now : Z) (c : State) : State :=
  mkState (apiHost c) (clientId c) (credentials c) now (wsTimer c)
          (pollingTimer c) (socket c) (listeners c) (extDestroyed c) (destroyed c).

(** [destroy]. *)
Definition destroy (c : State) : State * list Event :=
  if destroyed c then
    (c, [log "destroy" "Destroying client..."; log "destroy" "Client already destroyed"])
  else
    (mkState (apiHost c) (clientId c) (credentials c) (lastActivity c)
             false false None [] true true,
     [log "destroy" "Destroying client...";
      log "removeAllListeners" "Triggered";
      log "destroy" "Client destroyed completely"]).

(** A text frame after [JSON.parse]: [None] when parsing throws; a missing
    or falsy [type] is the empty string, a falsy [data] is [None]. *)
Record TextMsg := mkTextMsg {
  msg_type : string;
  msg_data : option (option string)   (* [data], with its truthy [sid] *)
}.

Inductive FrameData :=
| Binary (buffer : Buffer)
| Text (msg : option TextMsg)
| OtherData.

(** The [try] block of [onmessage]: what is dispatched and the new
    [clientId]. *)
Definition onMessageBody (c : State) (data : FrameData)
  : option string * Dispatch :=
  match data with
  | Binary buffer => (clientId c, onBinaryMessage buffer)
  | Text None => (clientId c, log_unhandled)
  | Text (Some msg) =>
      match msg_data msg with
      | None => (clientId c, ignored)
      | Some sid =>
          if String.eqb (msg_type msg) "" then (clientId c, ignored)
          else
            (match sid with Some s => Some s | None => clientId c end,
             if String.eqb (msg_type msg) "logs" then all_and_terminal
             else all_and (msg_type msg))
      end
  | OtherData => (clientId c, log_unhandled)
  end.

(** [createSocket(true)] as called from [pollFn]; [wsOk] tells whether
    [new WebSocketClient] succeeds.  On failure the polling fallback is set
    up again. *)
Definition createSocketFromPoll (wsOk : bool) (c : State) : State * list Event :=
  match socket c with
  | Some _ => (c, [log "socket" "Socket already exists, skipping creation."])
  | None =>
      if wsOk then
        (mkState (apiHost c) (clientId c) (credentials c) (lastActivity c) (wsTimer c)
                 (pollingTimer c) (Some (mkSocket true CONNECTING true)) (listeners c)
                 (extDestroyed c) (destroyed c), [])
      else
        (mkState (apiHost c) (clientId c) (credentials c) (lastActivity c) (wsTimer c)
                 true None (listeners c) (extDestroyed c) (destroyed c),
         [log "socket" "WebSocket creation failed, falling back to polling";
          websocket_unavailable;
          log "socket" "Setting up polling fallback mechanism";
          log "socket" "Polling started with interval of 2000ms"])
  end.

(** [pollFn] once [pollStatus] has resolved. *)
Definition pollFn (now : Z) (wsOk : bool) (c : State) : State * list Event :=
  let c1 := resetLastActivity now c in
  match socket c1 with
  | Some (mkSocket _ OPEN _) =>
      (mkState (apiHost c1) (clientId c1) (credentials c1) (lastActivity c1) (wsTimer c1)
               false (socket c1) (listeners c1) (extDestroyed c1) (destroyed c1),
       [status; log "socket" "WebSocket connection restored, stopping polling"])
  | _ =>
      let '(c2, evs) := createSocketFromPoll wsOk c1 in
      (c2, status :: log "socket" "Attempting to restore WebSocket connection" :: evs)
  end.

(** What reaches the client. *)
Inductive Input :=
| Destroy
| FetchApi (route : string)
| HttpResponse (now : Z) (httpStatus : Z)    (* the answer to a [fetchApi] call *)
| SocketOpen (now : Z)                       (* [onopen] *)
| SocketMessage (now : Z) (data : FrameData) (* [onmessage] *)
| PollOk (now : Z) (wsOk : bool).            (* [pollFn], status poll succeeded *)

(** The handlers [onopen] and [onmessage] run only while they are installed
    on the current socket.  [fetchApi] and the arrival of its response touch
    no field of the client: the response is handed to the caller. *)
Definition step (c : State) (i : Input) : State * list Event :=
  match i with
  | Destroy => destroy c
  | FetchApi _ => (c, [])
  | HttpResponse _ _ => (c, [])
  | SocketOpen now =>
      match socket c with
      | Some s =>
          if handlers s then
            (resetLastActivity now c,
             [log "socket" "Socket opened";
              if isReconnect s then reconnected else connected])
          else (c, [])
      | None => (c, [])
      end
  | SocketMessage now data =>
      match socket c with
      | Some s =>
          if handlers s then
            let c1 := resetLastActivity now c in
            let '(cid, d) := onMessageBody c1 data in
            (mkState (apiHost c1) cid (credentials c1) (lastActivity c1) (wsTimer c1)
                     (pollingTimer c1) (socket c1) (listeners c1) (extDestroyed c1)
                     (destroyed c1), [dispatched d])
          else (c, [])
      | None => (c, [])
      end
  | PollOk now wsOk => pollFn now wsOk c
  end.

Definition run (c : State) (inputs : list Input) : State :=
  foldl (fun c i => (step c i).1) c inputs.

(** The time stamps carried by the inputs that call [Date.now()]. *)
Definition clock (i : Input) : option Z :=
  match i with
  | SocketOpen now | SocketMessage now _ | PollOk now _ | HttpResponse now _ => Some now
  | _ => None
  end.

(** The clock does not run backwards along the inputs, starting from the
    reading [t]. *)
Fixpoint nondecreasing (t : Z) (inputs : list Input) : Prop :=
  match inputs with
  | [] => True
  | i :: rest =>
      match clock i with
      | Some now => t <= now /\ nondecreasing now rest
      | None => nondecreasing t rest
      end
  end.


(** The delays of the attempts [from + 1], ..., [from + len]. *)
Definition delays (rnd : Q -> Q) (random : Z -> Q) (from : Z) (len : Z)
  : list ReconnectPlan :=
  (fun n => RetryAfter (retryDelay rnd n (random n))) <$> seqZ (from + 1) len.

(** *** [pingSuccess] *)

(** How [pingSuccess] ends, with the number of pings sent. *)
Inductive PingResult :=
| PingOk (pings : nat)
| PingFailed (pings : nat)      (* [Can't connect to the server] *)
| PingOutOfFuel.

(** The [while (!ping.status)] loop of [pingSuccess].  [answers k] is the
    [status] of ping number [k] (from 0); [pings] pings have been sent and
    [ping] is the status of the last one. *)
Fixpoint pingLoop (fuel : nat) (maxTries : Z) (answers : nat -> bool)
    (tries : Z) (pings : nat) (ping : bool) : PingResult :=
  if ping then PingOk pings
  else
    match fuel with
    | O => PingOutOfFuel
    | S fuel' =>
        if maxTries <? tries then PingFailed pings
        else pingLoop fuel' maxTries answers (tries + 1) (S pings) (answers pings)
    end.

Definition pingSuccess (fuel : nat) (maxTries : Z) (answers : nat -> bool)
  : PingResult :=
  pingLoop fuel maxTries answers 0 1 (answers 0%nat).

(** *** [queuePrompt] and [appendPrompt] *)

(** The JSON body of [queuePrompt]; [front] and [number] are the optional
    fields. *)
Record PromptBody (W : Type) := mkPromptBody {
  body_client_id : option string;
  body_prompt : W;
  body_front : bool;
  body_number : option Z
}.
Arguments mkPromptBody {W}.
Arguments body_client_id {W}.
Arguments body_prompt {W}.
Arguments body_front {W}.
Arguments body_number {W}.

Definition queuePromptBody {W : Type} (c : State) (number : option Z) (workflow : W)
  : PromptBody W :=
  match number with
  | None => mkPromptBody (clientId c) workflow false None
  | Some n =>
      if n =? -1 then mkPromptBody (clientId c) workflow true None
      else if n =? 0 then mkPromptBody (clientId c) workflow false None
      else mkPromptBody (clientId c) workflow false (Some n)
  end.

(** What comes back from [fetch]: a response with its status and its body
    ([None] when the body is not JSON, so that [response.json()] rejects),
    or a rejection (a network error, which has no [response] property). *)
Inductive FetchResult (J : Type) :=
| Responded (httpStatus : Z) (json : option J)
| FetchRejected.
Arguments Responded {J}.
Arguments FetchRejected {J}.

(** What the promise of [queuePrompt] is rejected with. *)
Inductive Rejection (J : Type) :=
| WithResponse (httpStatus : Z) (json : option J)  (* [e.response], the response *)
| WithUndefined                    (* [e.response] of an error that has none *)
| WithSyntaxError.                 (* the rejection of [response.json()] *)
Arguments WithResponse {J}.
Arguments WithUndefined {J}.
Arguments WithSyntaxError {J}.

(** How [queuePrompt] settles: with the parsed body, or rejected. *)
Inductive QueueResult (J : Type) :=
| Queued (json : J)
| QueueThrew (e : Rejection J).
Arguments Queued {J}.
Arguments QueueThrew {J}.

(** [queuePrompt] once [fetch] has settled.  [return response.json()] is
    not awaited inside the [try]: when the body of a 200 answer cannot be
    parsed, the rejection passes by the [catch], so nothing is logged and
    the promise is rejected with the parse error itself. *)
Definition queuePrompt {J : Type} (r : FetchResult J) : QueueResult J * list Event :=
  match r with
  | Responded st body =>
      if st =? 200 then
        match body with
        | Some json => (Queued json, [])
        | None => (QueueThrew WithSyntaxError, [])
        end
      else (QueueThrew (WithResponse st body), [log "queuePrompt" "Can't queue prompt"])
  | FetchRejected => (QueueThrew WithUndefined, [log "queuePrompt" "Can't queue prompt"])
  end.

Inductive ClientSignal :=
| SigEvent (e : Event)
| SigQueueError.                 (* the [queue_error] event *)

(** [appendPrompt]: [queuePrompt(null, workflow)] with the [catch] that
    dispatches [queue_error] and rethrows. *)
Definition appendPrompt {J : Type} (r : FetchResult J)
  : QueueResult J * list ClientSignal :=
  match queuePrompt r with
  | (Queued json, evs) => (Queued json, SigEvent <$> evs)
  | (QueueThrew e, evs) => (QueueThrew e, (SigEvent <$> evs) ++ [SigQueueError])
  end.

(** *** Listener bookkeeping ([on], [off], [removeAllListeners]) *)

(** A registration: event type, callback (by identity) and the [capture]
    flag of the options, which is what [EventTarget] compares. *)
Record Listener := mkListener {
  l_event : string;
  l_handler : nat;
  l_capture : bool
}.

Global Instance Listener_eq_dec : EqDecision Listener.
Proof. solve_decision. Defined.

(** The listeners attached to the event target, and the array
    [this.listeners] that the class keeps beside it. *)
Record Hub := mkHub {
  attached : list Listener;
  tracked : list Listener
}.

(** [addEventListener]: a registration that is already there is not added
    again. *)
Definition addEventListener (l : Listener) (ls : list Listener) : list Listener :=
  if bool_decide (l ∈ ls) then ls else ls ++ [l].

(** [removeEventListener]. *)
Definition removeEventListener (l : Listener) (ls : list Listener) : list Listener :=
  filter (fun x => x <> l) ls.

Definition on (h : Hub) (type : string) (callback : nat) (capture : bool) : Hub :=
  mkHub (addEventListener (mkListener type callback capture) (attached h))
        (tracked h ++ [mkListener type callback capture]).

(** [off]: the array keeps the entries whose event differs from [type]
    and whose handler differs from [callback]. *)
Definition off (h : Hub) (type : string) (callback : nat) (capture : bool) : Hub :=
  mkHub (removeEventListener (mkListener type callback capture) (attached h))
        (filter (fun x => l_event x <> type /\ l_handler x <> callback) (tracked h)).

Definition removeAllListeners (h : Hub) : Hub :=
  mkHub (foldl (fun ls l => removeEventListener l ls) (attached h) (tracked h)) [].

End Client.

(** * The prompt builder (prompt-builder.ts, tools.ts) *)

Module Builder.

(** *** Strings *)

(** [s.split(sep)] for a one-character separator; never empty. *)
Fixpoint split (sep : ascii) (s : string) : list string :=
  match s with
  | EmptyString => [EmptyString]
  | String c s' =>
      if Ascii.eqb c sep then EmptyString :: split sep s'
      else match split sep s' with
           | [] => [String c EmptyString]
           | x :: xs => String c x :: xs
           end
  end.

(** [s.replace(/c/g, d)]. *)
Fixpoint replaceAll (c d : ascii) (s : string) : string :=
  match s with
  | EmptyString => EmptyString
  | String x s' => String (if Ascii.eqb x c then d else x) (replaceAll c d s')
  end.

Definition slash : ascii := "/"%char.
Definition backslash : ascii := "\"%char.

Definition encodeNTPath (path : string) : string := replaceAll slash backslash path.
Definition encodePosixPath (path : string) : string := replaceAll backslash slash path.

(** Modelled from the spec: the enumeration [OSType] of types/api.ts, which
    is not among the sources; the spec lists POSIX, NT and Unknown. *)
Inductive OSType := POSIX | NT | Unknown.

(** *** Workflow values *)

(** JSON-shaped values.  An object is the finite map of its own
    properties. *)
#[warnings="-register-all"]
Inductive JValue :=
| JUndefined
| JNull
| JBool (b : bool)
| JNumber (n : Z)
| JString (s : string)
| JArray (l : list JValue)
| JObject (m : gmap string JValue).

(** [!v] is [negb (truthy v)]. *)
Definition truthy (v : JValue) : bool :=
  match v with
  | JUndefined | JNull => false
  | JBool b => b
  | JNumber n => negb (n =? 0)
  | JString s => negb (String.eqb s "")
  | JArray _ | JObject _ => true
  end.

(** Property names that every object inherits from [Object.prototype]. *)
Definition inherited (k : string) : bool :=
  includes ["__proto__"; "constructor"; "hasOwnProperty"; "isPrototypeOf";
            "propertyIsEnumerable"; "toLocaleString"; "toString"; "valueOf";
            "__defineGetter__"; "__defineSetter__"; "__lookupGetter__";
            "__lookupSetter__"]%string k.

(** A walk along a path either stays inside the JSON tree ([Done]) or
    leaves it ([Outside]): it read an inherited member, or reached a
    primitive or an array.  What JavaScript does from there on (a
    [TypeError], a write to an object that is not part of the workflow) is
    not described by the tree. *)
Inductive Status := Done | Outside.

(** [current[k] = v]. *)
Definition assign (current : JValue) (k : string) (v : JValue) : JValue * Status :=
  match current with
  | JObject m =>
      match m !! k with
      | None => if String.eqb k "__proto__" then (current, Outside)
                else (JObject (<[k:=v]> m), Done)
      | Some _ => (JObject (<[k:=v]> m), Done)
      end
  | _ => (current, Outside)
  end.

(** The body of the path loop of [input], started at [current]:
    intermediate keys are created when falsy, the last key is assigned. *)
Fixpoint writePath (keys : list string) (v : JValue) (current : JValue)
  : JValue * Status :=
  match keys with
  | [] => (current, Done)
  | k :: ks =>
      match ks with
      | [] => assign current k v
      | _ :: _ =>
          match current with
          | JObject m =>
              match m !! k with
              | Some child =>
                  let '(child', st) :=
                    writePath ks v (if truthy child then child else JObject ∅) in
                  (JObject (<[k:=child']> m), st)
              | None =>
                  if inherited k then (current, Outside)
                  else let '(child', st) := writePath ks v (JObject ∅) in
                       (JObject (<[k:=child']> m), st)
              end
          | _ => (current, Outside)
          end
      end
  end.

(** The two names that the loops of [inputRaw] test for. *)
Definition skipped (k : string) : bool :=
  String.eqb k "__proto__" || String.eqb k "constructor".

(** The path loop of [inputRaw]: as [writePath], but a key that is
    [__proto__] or [constructor] is passed over ([continue]), and the final
    assignment is dropped when the last key is one of the two. *)
Fixpoint writePathRaw (keys : list string) (v : JValue) (current : JValue)
  : JValue * Status :=
  match keys with
  | [] => (current, Done)
  | k :: ks =>
      match ks with
      | [] => if skipped k then (current, Done) else assign current k v
      | _ :: _ =>
          if skipped k then writePathRaw ks v current
          else
            match current with
            | JObject m =>
                match m !! k with
                | Some child =>
                    let '(child', st) :=
                      writePathRaw ks v (if truthy child then child else JObject ∅) in
                    (JObject (<[k:=child']> m), st)
                | None =>
                    if inherited k then (current, Outside)
                    else let '(child', st) := writePathRaw ks v (JObject ∅) in
                         (JObject (<[k:=child']> m), st)
                end
            | _ => (current, Outside)
            end
      end
  end.

(** The [encodeOs] step of [input] and [inputRaw]. *)
Definition encode (encodeOs : option OSType) (value : JValue) : JValue :=
  match encodeOs, value with
  | Some NT, JString s => JString (encodeNTPath s)
  | Some POSIX, JString s => JString (encodePosixPath s)
  | _, _ => value
  end.

(** *** Builders in the store *)

Definition loc := nat.

(** A value of [mapInputKeys]: [undefined], a path, or a reference to an
    array of paths. *)
Inductive Binding :=
| BUndefined
| BString (path : string)
| BArray (a : loc).

(** The fields of a [PromptBuilder].  [prompt] refers to the builder's
    workflow object.  The objects behind [mapInputKeys], [mapOutputKeys]
    and [bypassNodes] are made afresh for every builder and written only
    through it, so they are kept by value. *)
Record PromptBuilder := mkBuilder {
  prompt : loc;
  mapInputKeys : gmap string Binding;
  mapOutputKeys : gmap string (option string);
  bypassNodes : list string
}.

(** The heap: workflow objects, arrays of paths, builders. *)
Record Store := mkStore {
  objects : gmap loc JValue;
  arrays : gmap loc (list string);
  builders : gmap loc PromptBuilder
}.

Inductive Error :=
| KeyNotFound (key : string)      (* [Key ${key} not found] *)
| InvalidKey (key : string).      (* [Invalid key: ${key}] *)

(** How a call ends: it returns, it throws one of the builder's own errors,
    or it leaves what the store describes (see [Status], and references
    that point nowhere). *)
Inductive Outcome (A : Type) :=
| Returned (a : A)
| Threw (e : Error)
| Unmodelled.
Arguments Returned {A} a.
Arguments Threw {A} e.
Arguments Unmodelled {A}.

Definition allocObject (s : Store) (v : JValue) : Store * loc :=
  let l := fresh (dom (objects s)) in
  (mkStore (<[l:=v]> (objects s)) (arrays s) (builders s), l).

Definition allocArray (s : Store) (a : list string) : Store * loc :=
  let l := fresh (dom (arrays s)) in
  (mkStore (objects s) (<[l:=a]> (arrays s)) (builders s), l).

Definition allocBuilder (s : Store) (b : PromptBuilder) : Store * loc :=
  let l := fresh (dom (builders s)) in
  (mkStore (objects s) (arrays s) (<[l:=b]> (builders s)), l).

Definition setBuilder (s : Store) (l : loc) (b : PromptBuilder) : Store :=
  mkStore (objects s) (arrays s) (<[l:=b]> (builders s)).

Definition setObject (s : Store) (l : loc) (v : JValue) : Store :=
  mkStore (<[l:=v]> (objects s)) (arrays s) (builders s).

Definition setArray (s : Store) (l : loc) (a : list string) : Store :=
  mkStore (objects s) (<[l:=a]> (arrays s)) (builders s).

(** [new PromptBuilder(prompt, inputKeys, outputKeys)]: [structuredClone]
    copies the tree into a new object.  Assigning [undefined] to the key
    [__proto__] of a map creates no property. *)
Definition new_PromptBuilder (s : Store) (prompt : loc)
    (inputKeys outputKeys : list string) : Store * Outcome loc :=
  match objects s !! prompt with
  | None => (s, Unmodelled)
  | Some tree =>
      let '(s1, p) := allocObject s tree in
      let mi := foldl (fun m key => <[key:=BUndefined]> m) ∅
                      (filter (fun key => key ≠ "__proto__"%string) inputKeys) in
      let mo := foldl (fun m key => <[key:=None]> m) ∅
                      (filter (fun key => key ≠ "__proto__"%string) outputKeys) in
      let '(s2, b) := allocBuilder s1 (mkBuilder p mi mo []) in
      (s2, Returned b)
  end.

(** [clone]: a new builder on a copy of the workflow; the two maps are
    spread into new objects (their array values stay shared), the bypass
    list is copied. *)
Definition clone (s : Store) (this : loc) : Store * Outcome loc :=
  match builders s !! this with
  | None => (s, Unmodelled)
  | Some B =>
      match new_PromptBuilder s (prompt B) (map fst (map_to_list (mapInputKeys B)))
                              (map fst (map_to_list (mapOutputKeys B))) with
      | (s1, Returned nb) =>
          match builders s1 !! nb with
          | Some NB =>
              (setBuilder s1 nb (mkBuilder (prompt NB) (mapInputKeys B)
                                           (mapOutputKeys B) (bypassNodes B)),
               Returned nb)
          | None => (s1, Unmodelled)
          end
      | r => r
      end
  end.

(** [bypass(nodes)]; a single node is the one-element list. *)
Definition bypass (s : Store) (this : loc) (nodes : list string)
  : Store * Outcome loc :=
  match clone s this with
  | (s1, Returned nb) =>
      match builders s1 !! nb with
      | Some NB =>
          (setBuilder s1 nb (mkBuilder (prompt NB) (mapInputKeys NB) (mapOutputKeys NB)
                                       (bypassNodes NB ++ nodes)), Returned nb)
      | None => (s1, Unmodelled)
      end
  | r => r
  end.

(** [arr.splice(arr.indexOf(node), 1)]: with [indexOf] at [-1] the splice
    counts from the end and removes the last element. *)
Definition spliceOut (arr : list string) (node : string) : list string :=
  match findIndex (String.eqb node) arr with
  | Some i => delete i arr
  | None => take (length arr - 1) arr
  end.

Definition reinstate (s : Store) (this : loc) (nodes : list string)
  : Store * Outcome loc :=
  match clone s this with
  | (s1, Returned nb) =>
      match builders s1 !! nb with
      | Some NB =>
          (setBuilder s1 nb (mkBuilder (prompt NB) (mapInputKeys NB) (mapOutputKeys NB)
                                       (foldl spliceOut (bypassNodes NB) nodes)),
           Returned nb)
      | None => (s1, Unmodelled)
      end
  | r => r
  end.

(** The [key] argument of the input-node methods: a path or a reference to
    the caller's array of paths. *)
Inductive KeyArg :=
| KString (path : string)
| KArray (a : loc).

Definition bindingOf (key : KeyArg) : Binding :=
  match key with
  | KString p => BString p
  | KArray a => BArray a
  end.

(** [setRawInputNode], to which [setInputNode] forwards.  With the name
    [__proto__] the assignment reaches the prototype setter instead of the
    map. *)
Definition setInputNode (s : Store) (this : loc) (input : string) (key : KeyArg)
  : Store * Outcome loc :=
  match builders s !! this with
  | None => (s, Unmodelled)
  | Some B =>
      if String.eqb input "__proto__" then (s, Unmodelled) else
      clone (setBuilder s this
               (mkBuilder (prompt B) (<[input:=bindingOf key]> (mapInputKeys B))
                          (mapOutputKeys B) (bypassNodes B))) this
  end.

(** [appendRawInputNode], to which [appendInputNode] forwards.  A string
    binding is first replaced by a new one-element array; [push] then
    extends the bound array in place; an [undefined] binding stops the
    optional call. *)
Definition appendInputNode (s : Store) (this : loc) (input : string) (key : KeyArg)
  : Store * Outcome loc :=
  match builders s !! this with
  | None => (s, Unmodelled)
  | Some B =>
      match (match key with
             | KString p => Some [p]
             | KArray a => arrays s !! a
             end) with
      | None => (s, Unmodelled)
      | Some keys =>
          match mapInputKeys B !! input with
          | Some (BString p) =>
              let '(s1, a) := allocArray s (p :: keys) in
              clone (setBuilder s1 this
                       (mkBuilder (prompt B) (<[input:=BArray a]> (mapInputKeys B))
                                  (mapOutputKeys B) (bypassNodes B))) this
          | Some (BArray a) =>
              match arrays s !! a with
              | Some old => clone (setArray s a (old ++ keys)) this
              | None => (s, Unmodelled)
              end
          | Some BUndefined => clone s this
          | None => if inherited input then (s, Unmodelled) else clone s this
          end
      end
  end.


(** The [for (const path of paths)] loop of [input] on the workflow tree. *)
Fixpoint writePaths (paths : list string) (v : JValue) (tree : JValue)
  : JValue * Status :=
  match paths with
  | [] => (tree, Done)
  | path :: rest =>
      match writePath (split "."%char path) v tree with
      | (tree', Done) => writePaths rest v tree'
      | r => r
      end
  end.

Definition finish (s : Store) (this : loc) (p : loc) (r : JValue * Status)
  : Store * Outcome loc :=
  (setObject s p r.1, match r.2 with Done => Returned this | Outside => Unmodelled end).

(** [let paths = this.mapInputKeys[key]] with the test [!paths] and the
    wrapping of a single path. *)
Definition pathsOf (s : Store) (B : PromptBuilder) (key : string)
  : Outcome (list string) :=
  match mapInputKeys B !! key with
  | None => if inherited key then Unmodelled else Threw (KeyNotFound key)
  | Some BUndefined => Threw (KeyNotFound key)
  | Some (BString path) =>
      if String.eqb path "" then Threw (KeyNotFound key) else Returned [path]
  | Some (BArray a) =>
      match arrays s !! a with
      | None => Unmodelled
      | Some paths => Returned paths
      end
  end.

(** [input(key, value, encodeOs)].  It returns [this]. *)
Definition input (s : Store) (this : loc) (key : string) (value : JValue)
    (encodeOs : option OSType) : Store * Outcome loc :=
  match builders s !! this with
  | None => (s, Unmodelled)
  | Some B =>
      match value with
      | JUndefined => (s, Returned this)
      | _ =>
          let valueToSet := encode encodeOs value in
          match pathsOf s B key with
          | Returned paths =>
              match objects s !! prompt B with
              | None => (s, Unmodelled)
              | Some tree =>
                  finish s this (prompt B) (writePaths paths valueToSet tree)
              end
          | Threw e => (s, Threw e)
          | Unmodelled => (s, Unmodelled)
          end
      end
  end.

(** The guard at the head of [inputRaw]; it looks at the whole key. *)
Definition invalidKey (key : string) : bool :=
  String.eqb key "__proto__" || String.eqb key "constructor"
  || String.eqb key "prototype".

(** [inputRaw(key, value, encodeOs)].  It returns [this]. *)
Definition inputRaw (s : Store) (this : loc) (key : string) (value : JValue)
    (encodeOs : option OSType) : Store * Outcome loc :=
  if invalidKey key
  then (s, Threw (InvalidKey key))
  else
    match builders s !! this with
    | None => (s, Unmodelled)
    | Some B =>
        match value with
        | JUndefined => (s, Returned this)
        | _ =>
            let valueToSet := encode encodeOs value in
            match objects s !! prompt B with
            | None => (s, Unmodelled)
            | Some tree =>
                finish s this (prompt B)
                       (writePathRaw (split "."%char key) valueToSet tree)
            end
        end
    end.

(** [get workflow]. *)
Definition workflow (s : Store) (this : loc) : option JValue :=
  builders s !! this ≫= fun B => objects s !! prompt B.

(** *** What can be observed of a builder *)

Inductive BindingView :=
| VUndefined
| VString (path : string)
| VArray (paths : option (list string)).

Definition viewBinding (s : Store) (b : Binding) : BindingView :=
  match b with
  | BUndefined => VUndefined
  | BString p => VString p
  | BArray a => VArray (arrays s !! a)
  end.

(** The workflow, the input map with its arrays read out, the output map
    and the bypass list of the builder at [this]. *)
Definition view (s : Store) (this : loc)
  : option (option JValue * gmap string BindingView
            * gmap string (option string) * list string) :=
  builders s !! this ≫= fun B =>
    Some (objects s !! prompt B, viewBinding s <$> mapInputKeys B,
          mapOutputKeys B, bypassNodes B).

(** *** Sequences of calls *)







(** *** Reading a workflow *)

(** [tree[k1][k2]...] over own properties: the value at the end of the
    path, if every step before it is an object that has the key. *)
Fixpoint getPath (keys : list string) (tree : JValue) : option JValue :=
  match keys with
  | [] => Some tree
  | k :: ks =>
      match tree with
      | JObject m => m !! k ≫= getPath ks
      | _ => None
      end
  end.

(** The object [{k1: {k2: ... {kn: v}}}]. *)
Fixpoint nested (keys : list string) (v : JValue) : JValue :=
  match keys with
  | [] => v
  | k :: ks => JObject {[ k := nested ks v ]}
  end.

(** The character [c] occurs in [s]. *)
Fixpoint occurs (c : ascii) (s : string) : bool :=
  match s with
  | EmptyString => false
  | String x s' => Ascii.eqb x c || occurs c s'
  end.

(** What a builder shows for one input name. *)
Definition viewInput (s : Store) (this : loc) (name : string) : option BindingView :=
  builders s !! this ≫= fun B => viewBinding s <$> mapInputKeys B !! name.

(** *** Walks that leave the workflow *)

(** The two objects that a walk reaches from a workflow object through an
    inherited member: [current["__proto__"]] is [Object.prototype] and
    [current["constructor"]] is the function [Object].  Every object of the
    program shares them. *)
Inductive Shared := ObjectPrototype | ObjectFunction.

(** The assignment [target[key] = value] on a shared object. *)
Record SharedWrite := mkSharedWrite {
  target : Shared;
  written_key : string;
  written_value : JValue
}.

(** Where the walk of [writePath] leaves the tree through [__proto__] or
    [constructor], read on an object that has no such property of its own:
    the shared object it goes on from and the keys still to go.  The
    recursion is that of [writePath]. *)
Fixpoint leaves (keys : list string) (current : JValue)
  : option (Shared * list string) :=
  match keys with
  | [] => None
  | k :: ks =>
      match ks with
      | [] => None
      | _ :: _ =>
          match current with
          | JObject m =>
              match m !! k with
              | Some child =>
                  leaves ks (if truthy child then child else JObject ∅)
              | None =>
                  if String.eqb k "__proto__" then Some (ObjectPrototype, ks)
                  else if String.eqb k "constructor" then Some (ObjectFunction, ks)
                  else if inherited k then None
                  else leaves ks (JObject ∅)
              end
          | _ => None
          end
      end
  end.

(** The rest of the walk, from a shared object on, in a program that has
    not changed [Object.prototype] or [Object] before:
    [Object.prototype.constructor] is [Object], [Object.prototype] is
    itself, and the last key is assigned on the object reached.  [None]
    where this description stops: another member is read on the way, or
    the last key is an accessor or a read-only property ([__proto__];
    [prototype], [name], [length] of [Object]). *)
Fixpoint landing (current : Shared) (keys : list string) : option (Shared * string) :=
  match keys with
  | [] => None
  | k :: ks =>
      match ks with
      | [] =>
          match current with
          | ObjectPrototype =>
              if String.eqb k "__proto__" then None else Some (current, k)
          | ObjectFunction =>
              if includes ["__proto__"; "prototype"; "name"; "length"]%string k
              then None else Some (current, k)
          end
      | _ :: _ =>
          match current with
          | ObjectPrototype =>
              if String.eqb k "constructor" then landing ObjectFunction ks else None
          | ObjectFunction =>
              if String.eqb k "prototype" then landing ObjectPrototype ks else None
          end
      end
  end.

(** [input(key, value, encodeOs)] on a name bound to a single path,
    followed beyond the workflow tree: where [input] leaves what the store
    describes because the walk goes through [__proto__] or [constructor],
    the call returns [this] after the write on the shared object, which is
    the third component.  Everywhere else it is [input]. *)
Definition inputShared (s : Store) (this : loc) (key : string) (value : JValue)
    (encodeOs : option OSType) : Store * Outcome loc * option SharedWrite :=
  match input s this key value encodeOs with
  | (s', Unmodelled) =>
      match builders s !! this with
      | Some B =>
          match mapInputKeys B !! key, objects s !! prompt B with
          | Some (BString path), Some tree =>
              match leaves (split "."%char path) tree with
              | Some (shared, rest) =>
                  match landing shared rest with
                  | Some (shared', k) =>
                      (s', Returned this,
                       Some (mkSharedWrite shared' k (encode encodeOs value)))
                  | None => (s', Unmodelled, None)
                  end
              | None => (s', Unmodelled, None)
              end
          | _, _ => (s', Unmodelled, None)
          end
      | None => (s', Unmodelled, None)
      end
  | (s', r) => (s', r, None)
  end.

End Builder.

(** * Properties *)

(** ** Array helpers *)

Lemma findIndex_Some {A : Type} (p : A -> bool) (l : list A) (i : nat) :
  findIndex p l = Some i ->
  exists x, l !! i = Some x /\ p x = true /\
            forall j y, (j < i)%nat -> l !! j = Some y -> p y = false.
Proof.
  revert i. induction l as [|a l IH]; intros i H; simpl in H; [discriminate|].
  destruct (p a) eqn:Hpa.
  - inversion H; subst. exists a. repeat split; auto. intros j y Hj. lia.
  - destruct (findIndex p l) as [k|] eqn:Hk; simpl in H; [|discriminate].
    inversion H; subst. destruct (IH k eq_refl) as (x & Hx & Hpx & Hlt).
    exists x. repeat split; auto.
    intros [|j] y Hj Hy; simpl in Hy.
    + congruence.
    + apply (Hlt j y); [lia|assumption].
Qed.

Lemma findIndex_None {A : Type} (p : A -> bool) (l : list A) :
  findIndex p l = None -> forall x, x ∈ l -> p x = false.
Proof.
  induction l as [|a l IH]; intros H x Hx; simpl in H.
  - by apply elem_of_nil in Hx.
  - destruct (p a) eqn:Hpa; [discriminate|].
    destruct (findIndex p l) eqn:Hk; simpl in H; [discriminate|].
    apply elem_of_cons in Hx as [->|Hx]; auto.
Qed.

Lemma findIndex_exists {A : Type} (p : A -> bool) (l : list A) (x : A) :
  x ∈ l -> p x = true -> is_Some (findIndex p l).
Proof.
  intros Hx Hp. destruct (findIndex p l) eqn:E; [eauto|].
  rewrite (findIndex_None p l E x Hx) in Hp. discriminate.
Qed.

Lemma findIndex_lt {A : Type} (p : A -> bool) (l : list A) (i : nat) :
  findIndex p l = Some i -> (i < length l)%nat.
Proof.
  intros H. destruct (findIndex_Some p l i H) as (x & Hx & _).
  by eapply lookup_lt_Some.
Qed.

(** ** The client pool *)

Module PoolSpec.
Import Pool.

(** *** The job queue *)

(** Where [pushJobByWeight] puts the item: behind a prefix without any
    strictly heavier job, in front of the first strictly heavier one. *)
Lemma pushJobByWeight_split (q : list JobItem) (item : JobItem) :
  exists l1 l2,
    q = l1 ++ l2 /\ (pushJobByWeight q item).1 = l1 ++ item :: l2 /\
    Forall (fun j => weight j <= weight item) l1 /\
    match l2 with
    | [] => True
    | j :: _ => weight item < weight j
    end.
Proof.
  unfold pushJobByWeight.
  destruct (findIndex _ q) as [idx|] eqn:E.
  - exists (take idx q), (drop idx q). simpl.
    destruct (findIndex_Some _ _ _ E) as (x & Hx & Hpx & Hlt).
    split; [by rewrite take_drop|]. split; [reflexivity|]. split.
    + apply Forall_forall. intros j Hj.
      apply list_elem_of_lookup in Hj as [k Hk].
      pose proof (lookup_lt_Some _ _ _ Hk) as Hlen.
      rewrite length_take in Hlen.
      rewrite lookup_take_lt in Hk by lia.
      specialize (Hlt k j ltac:(lia) Hk). simpl in Hlt. lia.
    + rewrite (drop_S _ _ _ Hx). lia.
  - exists q, []. simpl. split; [by rewrite app_nil_r|]. split; [reflexivity|].
    split; [|exact I].
    apply Forall_forall. intros j Hj.
    pose proof (findIndex_None _ _ E j Hj) as Hf. simpl in Hf. lia.
Qed.

Lemma before_le (a b : JobItem) : before a b -> weight a <= weight b.
Proof. unfold before. lia. Qed.

Lemma StronglySorted_insert {A : Type} (R : A -> A -> Prop) (l1 l2 : list A) (x : A) :
  StronglySorted R (l1 ++ l2) ->
  Forall (fun a => R a x) l1 -> Forall (R x) l2 ->
  StronglySorted R (l1 ++ x :: l2).
Proof.
  induction l1 as [|a l1 IH]; simpl; intros Hs H1 H2.
  - by constructor.
  - inversion Hs as [|? ? Hs' Ha]; subst. inversion H1; subst.
    constructor; [by apply IH|].
    apply Forall_app in Ha as [Ha1 Ha2].
    apply Forall_app. split; [assumption|]. by constructor.
Qed.

Lemma queueInv_push (n : nat) (q : list JobItem) (w : Z)
    (inc exc : option (list string)) :
  queueInv n q ->
  queueInv (S n) (pushJobByWeight q (mkJobItem w inc exc n)).1.
Proof.
  intros [Hs Hn].
  destruct (pushJobByWeight_split q (mkJobItem w inc exc n))
    as (l1 & l2 & Hq & -> & Hl1 & Hl2).
  subst q. apply Forall_app in Hn as [Hn1 Hn2]. split.
  - apply StronglySorted_insert; [assumption| |].
    + apply Forall_forall. intros j Hj.
      rewrite Forall_forall in Hl1. rewrite Forall_forall in Hn1.
      specialize (Hl1 j Hj). specialize (Hn1 j Hj). simpl in *.
      unfold before. simpl. lia.
    + destruct l2 as [|j l2]; [constructor|]. simpl in Hl2.
      assert (Hs2 : StronglySorted before (j :: l2)).
      { clear -Hs. induction l1; simpl in Hs; [assumption|].
        inversion Hs; subst; auto. }
      inversion Hs2 as [|? ? _ Hj]; subst.
      constructor; [unfold before; simpl; lia|].
      eapply Forall_impl; [exact Hj|]. intros k Hk.
      apply before_le in Hk. unfold before. simpl. lia.
  - apply Forall_app. split; [|constructor; simpl; [lia|]].
    + eapply Forall_impl; [exact Hn1|]. simpl. intros; lia.
    + eapply Forall_impl; [exact Hn2|]. simpl. intros; lia.
Qed.

Lemma queueInv_applyOp (n : nat) (p : PoolState) (op : QueueOp) :
  queueInv n (jobQueue p) -> queueInv (S n) (jobQueue (applyOp p n op)).
Proof.
  intros Hinv.
  assert (Hmono : queueInv (S n) (jobQueue p)).
  { destruct Hinv as [Hs Hn]. split; [assumption|].
    eapply Forall_impl; [exact Hn|]. simpl. intros; lia. }
  destruct op as [w inc exc|]; simpl.
  - unfold claim. destruct (_ >=? _); [assumption|].
    pose proof (queueInv_push n (jobQueue p)
                  (match w with None => Z.of_nat (length (jobQueue p)) | Some w => w end)
                  inc exc Hinv) as Hp.
    destruct (pushJobByWeight _ _) as [q idx]. exact Hp.
  - unfold shift. destruct (jobQueue p) as [|j q] eqn:E;
      [simpl; rewrite E; split; constructor|].
    simpl. destruct Hmono as [Hs Hn]. inversion Hs; subst. inversion Hn; subst.
    by split.
Qed.

Lemma queueInv_applyOps (ops : list QueueOp) (n : nat) (p : PoolState) :
  queueInv n (jobQueue p) ->
  queueInv (n + length ops) (jobQueue (applyOps p n ops)).
Proof.
  revert n p. induction ops as [|op ops IH]; intros n p Hinv; simpl.
  - by rewrite Nat.add_0_r.
  - replace (n + S (length ops))%nat with (S n + length ops)%nat by lia.
    apply IH. by apply queueInv_applyOp.
Qed.

(** C4.  Starting from the empty queue of a new pool, after any history of
    insertions by [claim] and removals by [shift] the queue is
    non-decreasing in weight, and jobs of equal weight stand in the order
    of their submission; [pushJobByWeight] puts the new job immediately
    before the first job of strictly greater weight, at the end if there is
    none. *)
Theorem jobQueue_sorted_stable (cs : list ClientState) (m : EQueueMode)
    (r : option nat) (maxQ : Z) (ops : list QueueOp) :
  let q := jobQueue (applyOps (mkPool cs m [] r maxQ) 0 ops) in
  StronglySorted (fun a b => weight a <= weight b) q /\
  (forall i j a b, (i < j)%nat -> q !! i = Some a -> q !! j = Some b ->
                   weight a = weight b -> (fn a < fn b)%nat) /\
  (forall q0 item, exists l1 l2,
      q0 = l1 ++ l2 /\ (pushJobByWeight q0 item).1 = l1 ++ item :: l2 /\
      Forall (fun j => weight j <= weight item) l1 /\
      match l2 with
      | [] => True
      | j :: _ => weight item < weight j
      end).
Proof.
  intros q.
  assert (Hinv : queueInv (0 + length ops) q).
  { apply queueInv_applyOps. simpl. split; constructor. }
  destruct Hinv as [Hs _]. split; [|split].
  - clear -Hs. induction Hs as [|a l Hs IH Ha]; constructor; [assumption|].
    eapply Forall_impl; [exact Ha|]. intros b. apply before_le.
  - clear -Hs. induction Hs as [|x l Hs IH Hx]; intros i j a b Hij Hi Hj Hw.
    + by rewrite lookup_nil in Hi.
    + destruct j as [|j]; [lia|]. simpl in Hj. destruct i as [|i]; simpl in Hi.
      * inversion Hi; subst. rewrite Forall_forall in Hx.
        assert (Hb : b ∈ l) by (apply list_elem_of_lookup; eauto).
        specialize (Hx b Hb). unfold before in Hx. lia.
      * apply (IH i j a b); [lia|assumption..].
  - apply pushJobByWeight_split.
Qed.

(** *** Client selection *)

(** What a successful poll of [getAvailableClient] has found: an accepted
    client state [a] at the picked index, and the first client state with
    the id of [a], which is the one locked and returned. *)
Lemma selectOnce_Some (p p' : PoolState) (inc exc : option (list string)) (i : nat) :
  selectOnce p inc exc = (p', Some i) ->
  exists k a c,
    (pickIndex (mode p) (routineIdx p)
       (filter (fun c => accepted inc exc c = true) (clientStates p))).1 = Some k /\
    filter (fun c => accepted inc exc c = true) (clientStates p) !! k = Some a /\
    clientStates p !! i = Some c /\ id c = id a /\
    clientStates p' = alter lock i (clientStates p).
Proof.
  unfold selectOnce.
  destruct (pickIndex _ _ _) as [index r] eqn:Hpick.
  destruct index as [k|]; simpl; [|discriminate].
  destruct (filter _ (clientStates p) !! k) as [a|] eqn:Ha; [|discriminate].
  destruct (findIndex _ (clientStates p)) as [t|] eqn:Ht; [|discriminate].
  intros H; inversion H; subst.
  destruct (findIndex_Some _ _ _ Ht) as (c & Hc & Hid & _).
  apply String.eqb_eq in Hid.
  exists k, a, c. simpl. repeat split; assumption.
Qed.

Lemma accepted_online (inc exc : option (list string)) (c : ClientState) :
  accepted inc exc c = true -> online c = true.
Proof. unfold accepted. by destruct (online c). Qed.

(** With pairwise distinct ids, the state found by id is the state picked. *)
Lemma lookup_by_id (cs : list ClientState) (i : nat) (a c : ClientState) :
  NoDup (id <$> cs) -> a ∈ cs -> cs !! i = Some c -> id c = id a -> c = a.
Proof.
  intros Hnd Ha Hc Hid.
  apply list_elem_of_lookup in Ha as [j Hj].
  assert (i = j); [|congruence].
  eapply NoDup_lookup; [exact Hnd| |].
  - rewrite list_lookup_fmap, Hc. reflexivity.
  - rewrite list_lookup_fmap, Hj. simpl. by rewrite Hid.
Qed.

(** C2, as the code has it.  In mode [PICK_ZERO], when the clients have
    pairwise distinct ids, the client returned by a poll of
    [getAvailableClient] was online, unlocked and had an empty queue when
    it was picked. *)
Theorem pick_zero_never_locked (p p' : PoolState)
    (inc exc : option (list string)) (i : nat) (c : ClientState) :
  mode p = PICK_ZERO ->
  NoDup (id <$> clientStates p) ->
  selectOnce p inc exc = (p', Some i) ->
  clientStates p !! i = Some c ->
  locked c = false /\ online c = true /\ queueRemaining c = 0.
Proof.
  intros Hmode Hnd Hsel Hc.
  destruct (selectOnce_Some _ _ _ _ _ Hsel) as (k & a & c' & Hk & Ha & Hc' & Hid & _).
  rewrite Hc in Hc'. inversion Hc'; subst c'. clear Hc'.
  assert (Hin : a ∈ filter (fun c => accepted inc exc c = true) (clientStates p))
    by (apply list_elem_of_lookup; eauto).
  apply list_elem_of_filter in Hin as [Hacc Hin].
  assert (c = a) by (eapply lookup_by_id; eauto). subst c.
  rewrite Hmode in Hk. simpl in Hk.
  destruct (findIndex_Some _ _ _ Hk) as (x & Hx & Hpx & _).
  rewrite Ha in Hx. inversion Hx; subst x.
  apply andb_true_iff in Hpx as [Hpx _]. apply andb_true_iff in Hpx as [Hq Hl].
  apply negb_true_iff in Hl. apply Z.eqb_eq in Hq.
  split; [assumption|]. split; [|assumption]. by eapply accepted_online.
Qed.

(** The theorem applies: two clients, the first one locked. *)
Lemma pick_zero_never_locked_witness :
  let p := mkPool [mkClientState "a" 0 true true; mkClientState "b" 0 false true]
                  PICK_ZERO [] (Some 0%nat) 1000 in
  selectOnce p None None = (withStates p (alter lock 1%nat (clientStates p)), Some 1%nat) /\
  locked (mkClientState "b" 0 false true) = false /\
  online (mkClientState "b" 0 false true) = true /\
  queueRemaining (mkClientState "b" 0 false true) = 0.
Proof.
  split; [reflexivity|].
  apply (pick_zero_never_locked
           (mkPool [mkClientState "a" 0 true true; mkClientState "b" 0 false true]
                   PICK_ZERO [] (Some 0%nat) 1000)
           (mkPool [mkClientState "a" 0 true true; mkClientState "b" 0 true true]
                   PICK_ZERO [] (Some 0%nat) 1000)
           None None 1%nat (mkClientState "b" 0 false true)).
  - reflexivity.
  - simpl. apply NoDup_cons. split; [|apply NoDup_singleton].
    rewrite list_elem_of_In. simpl. intros [H|[]]. discriminate.
  - reflexivity.
  - reflexivity.
Defined.

(** C2 fails outside [PICK_ZERO].  In mode [PICK_LOWEST] a first poll
    locks the only client; a second poll, with nothing changed in between,
    returns that locked client again.  The same holds in [PICK_ROUTINE]. *)
Lemma locked_client_selected :
  let a := mkClientState "a" 0 false true in
  let p0 := mkPool [a] PICK_LOWEST [] (Some 0%nat) 1000 in
  let p1 := (selectOnce p0 None None).1 in
  let q0 := mkPool [a] PICK_ROUTINE [] (Some 0%nat) 1000 in
  let q1 := (selectOnce q0 None None).1 in
  (clientStates p1 !! 0%nat = Some (lock a) /\ locked (lock a) = true /\
   (selectOnce p1 None None).2 = Some 0%nat) /\
  (clientStates q1 !! 0%nat = Some (lock a) /\
   (selectOnce q1 None None).2 = Some 0%nat).
Proof. vm_compute. repeat split; reflexivity. Qed.

(** *** Failover *)





Section Failover.
Variable polls : nat.
Variable world : nat -> list ClientState -> list ClientState.
Variable job : nat -> Z -> bool.
Variable w : option Z.
Variable inc : option (list string).
Variable failover : bool.
Variables maxR delay : Z.
Variable onlineLen : nat.




End Failover.



(** C3 fails in the code when [includeIds] is given: the filter of
    [getAvailableClient] looks at [includeIds] first and then does not
    look at [excludeIds].  One client ["a"] is online,
    [includeIds = ["a"]], [maxRetries = 2], and the job always throws: the
    job is called twice, which is more than [min 2 1], and the second call
    is on ["a"] although ["a"] is in the exclude list by then.  With a
    second client ["b"] online and [includeIds = ["a", "b"]] the retry
    goes to ["a"] again, and ["b"] is never tried. *)
Theorem run_retries_excluded_client :
  let a := mkClientState "a" 0 false true in
  let b := mkClientState "b" 0 false true in
  let p := mkPool [a] PICK_LOWEST [] (Some 0%nat) 1000 in
  let p' := mkPool [a; b] PICK_LOWEST [] (Some 0%nat) 1000 in
  let o := mkRunOptions None (Some 2) None in
  let r := run 5 3 (fun _ cs => cs) (fun _ _ => false) p None
               (Some ["a"%string]) None o in
  let r' := run 5 3 (fun _ cs => cs) (fun _ _ => false) p' None
                (Some ["a"%string; "b"%string]) None o in
  r = ([AddJob 1 0; Executing 0 "a" [] 1; ExecutionError 0 true 1 2; SetTimeout 1000;
        AddJob 1 0; Executing 0 "a" ["a"%string] 2; ExecutionError 0 false 2 2],
       Rejected) /\
  ~ (invocations r.1 <= Z.to_nat (Z.min 2 (Z.of_nat (length (onlineClients p)))))%nat /\
  ~ respectsExcluded [] r.1 /\
  r' = r /\
  ~ respectsExcluded [] r'.1.
Proof.
  assert (H : run 5 3 (fun _ cs => cs) (fun _ _ => false)
                (mkPool [mkClientState "a" 0 false true] PICK_LOWEST [] (Some 0%nat) 1000)
                None (Some ["a"%string]) None (mkRunOptions None (Some 2) None)
              = ([AddJob 1 0; Executing 0 "a" [] 1; ExecutionError 0 true 1 2;
                  SetTimeout 1000; AddJob 1 0; Executing 0 "a" ["a"%string] 2;
                  ExecutionError 0 false 2 2], Rejected))
    by (vm_compute; reflexivity).
  assert (H' : run 5 3 (fun _ cs => cs) (fun _ _ => false)
                 (mkPool [mkClientState "a" 0 false true; mkClientState "b" 0 false true]
                         PICK_LOWEST [] (Some 0%nat) 1000)
                 None (Some ["a"%string; "b"%string]) None
                 (mkRunOptions None (Some 2) None)
               = ([AddJob 1 0; Executing 0 "a" [] 1; ExecutionError 0 true 1 2;
                   SetTimeout 1000; AddJob 1 0; Executing 0 "a" ["a"%string] 2;
                   ExecutionError 0 false 2 2], Rejected))
    by (vm_compute; reflexivity).
  cbv zeta. rewrite H, H'. split; [reflexivity|]. split; [|split; [|split]].
  - vm_compute. lia.
  - simpl. intros (_ & _ & _ & Hin & _). apply Hin. set_solver.
  - reflexivity.
  - simpl. intros (_ & _ & _ & Hin & _). apply Hin. set_solver.
Qed.

(** C10.  An option given as 0 is treated as absent: [retryDelay = 0]
    gives the delay 1000, [maxRetries = 0] gives the number of clients
    online, and the whole run is the same as with the option left out. *)
Theorem run_zero_option_is_default (fuel polls : nat)
    (world : nat -> list ClientState -> list ClientState)
    (job : nat -> Z -> bool) (p : PoolState) (w : option Z)
    (inc exc : option (list string)) (ef : option bool) (mr rd : option Z) :
  effRetryDelay (mkRunOptions ef mr (Some 0)) = 1000 /\
  effMaxRetries (mkRunOptions ef (Some 0) rd) p = Z.of_nat (length (onlineClients p)) /\
  run fuel polls world job p w inc exc (mkRunOptions ef mr (Some 0))
  = run fuel polls world job p w inc exc (mkRunOptions ef mr None) /\
  run fuel polls world job p w inc exc (mkRunOptions ef (Some 0) rd)
  = run fuel polls world job p w inc exc (mkRunOptions ef None rd).
Proof. repeat split; reflexivity. Qed.

End PoolSpec.

(** ** The backend client *)

Module ClientSpec.
Import Client.

(** *** Binary frames *)

(** Whatever the frame, a preview is typed [image/jpeg]: the image type is
    read where the event type was read, and a preview is dispatched only
    when the first word of the [ArrayBuffer] is 1. *)
Lemma onBinaryMessage_preview (buffer : Buffer) (mime : string) (blob : list byte) :
  onBinaryMessage buffer = b_preview mime blob ->
  mime = "image/jpeg"%string /\ blob = drop 8 (bytes buffer) /\
  getUint32 (arrayBuffer buffer) 0 = Some 1.
Proof.
  unfold onBinaryMessage. cbv zeta.
  destruct (getUint32 (arrayBuffer buffer) 0) as [eventType|]; [|discriminate].
  destruct (eventType =? 1) eqn:E; [|discriminate].
  apply Z.eqb_eq in E. subst eventType. simpl.
  intros H. inversion H. auto.
Qed.

(** C6 fails in the code, on the frame [00 00 00 01 | 00 00 00 02 | aa bb]
    (event 1, image type 2 = PNG, payload [aa bb]).  In a [Buffer] that
    starts at byte 0 of its [ArrayBuffer] the preview is dispatched as
    [image/jpeg]; in a [Buffer] that lies behind two other bytes of its
    [ArrayBuffer] (here the header [82 0a] of the WebSocket frame) the
    words are read from those bytes and no preview is dispatched.  No
    [Buffer] whatever is dispatched as [image/png]; when a preview is
    dispatched its payload is the frame's bytes from offset 8. *)
Theorem png_preview_typed_jpeg :
  let frame := [x00; x00; x00; x01; x00; x00; x00; x02; xaa; xbb] in
  onBinaryMessage (mkBuffer frame 0 10) = b_preview "image/jpeg" [xaa; xbb] /\
  bytes (mkBuffer ([x82; x0a] ++ frame) 2 10) = frame /\
  onBinaryMessage (mkBuffer ([x82; x0a] ++ frame) 2 10) = log_unhandled /\
  (forall buffer mime blob,
     onBinaryMessage buffer = b_preview mime blob ->
     mime <> "image/png"%string /\ blob = drop 8 (bytes buffer)).
Proof.
  cbv zeta. split; [reflexivity|]. split; [reflexivity|]. split; [reflexivity|].
  intros buffer mime blob H.
  destruct (onBinaryMessage_preview buffer mime blob H) as (-> & -> & _).
  split; [discriminate|reflexivity].
Qed.

(** *** Reconnection *)

Lemma rounding_le (rnd : Q -> Q) (x y : Q) :
  rounding rnd -> (x <= y)%Q -> (rnd x <= rnd y)%Q.
Proof. intros [H _]. apply H. Qed.

Lemma rounding_eq (rnd : Q -> Q) (x y : Q) :
  rounding rnd -> (x == y)%Q -> (rnd x == rnd y)%Q.
Proof.
  intros H E. apply Qle_antisym; apply (rounding_le rnd); try assumption; lra.
Qed.

(** An integer of magnitude at most [2^52] is a double. *)
Lemma rounding_Z (rnd : Q -> Q) (m : Z) (x : Q) :
  rounding rnd -> - 2 ^ 52 <= m <= 2 ^ 52 -> (x == inject_Z m)%Q ->
  (rnd x == inject_Z m)%Q.
Proof.
  intros H Hm E.
  assert (E2 : (inject_Z m == (2 * m) # 2)%Q).
  { unfold Qeq, inject_Z. simpl. lia. }
  rewrite (rounding_eq rnd x ((2 * m) # 2) H) by (rewrite E; exact E2).
  rewrite E2. destruct H as [_ H]. apply H.
  change (2 ^ 53) with (2 * 2 ^ 52). lia.
Qed.

(** A result between two integer doubles is rounded to a double between
    them. *)
Lemma rounding_within (rnd : Q -> Q) (a b : Z) (x : Q) :
  rounding rnd -> - 2 ^ 52 <= a <= 2 ^ 52 -> - 2 ^ 52 <= b <= 2 ^ 52 ->
  (inject_Z a <= x)%Q -> (x <= inject_Z b)%Q ->
  (inject_Z a <= rnd x)%Q /\ (rnd x <= inject_Z b)%Q.
Proof.
  intros H Ha Hb Hax Hxb. split.
  - rewrite <- (rounding_Z rnd a (inject_Z a) H Ha) by reflexivity.
    apply rounding_le; assumption.
  - rewrite <- (rounding_Z rnd b (inject_Z b) H Hb) by reflexivity.
    apply rounding_le; assumption.
Qed.

Lemma rounding_within_half (rnd : Q -> Q) (x : Q) :
  rounding rnd -> (- (1 # 2) <= x)%Q -> (x <= 1 # 2)%Q ->
  (- (1 # 2) <= rnd x)%Q /\ (rnd x <= 1 # 2)%Q.
Proof.
  intros H Hlo Hhi. pose proof H as [_ Hfix]. split.
  - assert (E : (rnd ((-1) # 2) == (-1) # 2)%Q) by (apply Hfix; lia).
    change (- (1 # 2))%Q with ((-1) # 2). rewrite <- E.
    apply rounding_le; assumption.
  - assert (E : (rnd (1 # 2) == 1 # 2)%Q) by (apply Hfix; lia).
    rewrite <- E. apply rounding_le; assumption.
Qed.

Lemma unrounded_rounding : rounding unrounded.
Proof. split; intros; unfold unrounded; [assumption|reflexivity]. Qed.

(** The nominal delay of the attempts 1 to 9: a multiple of four
    milliseconds between 1000 and 15000. *)
Lemma nominal_delay (n : Z) :
  1 <= n <= 9 ->
  exists h, Z.max 1000 (Z.min (1000 * 2 ^ (n - 1)) 15000) = 4 * h /\
            250 <= h <= 3750 /\
            Z.min (1000 * 2 ^ (n - 1)) 15000 = 4 * h /\
            1 <= 2 ^ (n - 1) <= 256.
Proof.
  intros Hn.
  assert (H : n = 1 \/ n = 2 \/ n = 3 \/ n = 4 \/ n = 5 \/ n = 6 \/ n = 7 \/
              n = 8 \/ n = 9) by lia.
  repeat (destruct H as [H|H];
          [subst n;
           match goal with
           | |- exists h, ?E = _ /\ _ => exists (E / 4)
           end;
           repeat split; vm_compute; congruence|]).
  subst n.
  match goal with
  | |- exists h, ?E = _ /\ _ => exists (E / 4)
  end.
  repeat split; vm_compute; congruence.
Qed.

Lemma Qpower_2_Z (n : Z) :
  1 <= n <= 9 -> (Qpower 2 (n - 1) == inject_Z (2 ^ (n - 1)))%Q.
Proof.
  intros Hn.
  assert (H : n = 1 \/ n = 2 \/ n = 3 \/ n = 4 \/ n = 5 \/ n = 6 \/ n = 7 \/
              n = 8 \/ n = 9) by lia.
  repeat (destruct H as [H|H]; [subst n; vm_compute; reflexivity|]).
  subst n; vm_compute; reflexivity.
Qed.

Lemma Qmin_inject_Z (a b : Z) :
  (Qmin (inject_Z a) (inject_Z b) == inject_Z (Z.min a b))%Q.
Proof.
  destruct (Z.min_spec a b) as [[Hlt ->]|[Hle ->]].
  - apply Q.min_l. rewrite <- Zle_Qle. lia.
  - apply Q.min_r. rewrite <- Zle_Qle. lia.
Qed.

(** With any rounding, the nominal delay is computed without error. *)
Lemma exponentialDelay_value (rnd : Q -> Q) (n : Z) :
  rounding rnd -> 1 <= n <= 9 ->
  (exponentialDelay rnd n
   == inject_Z (Z.max 1000 (Z.min (1000 * 2 ^ (n - 1)) 15000)))%Q.
Proof.
  intros H Hn.
  destruct (nominal_delay n Hn) as (h & E1 & Hh & E2 & Hp).
  rewrite E1, <- E2. unfold exponentialDelay, BASE_DELAY, MAX_DELAY.
  assert (P1 : (rnd (Qpower 2 (n - 1)) == inject_Z (2 ^ (n - 1)))%Q).
  { apply rounding_Z; [assumption|lia|apply Qpower_2_Z; assumption]. }
  assert (P2 : (rnd (1000 * rnd (Qpower 2 (n - 1)))
                == inject_Z (1000 * 2 ^ (n - 1)))%Q).
  { apply rounding_Z; [assumption|lia|].
    rewrite P1, inject_Z_mult. reflexivity. }
  rewrite <- Qmin_inject_Z.
  apply Q.min_compat; [exact P2|reflexivity].
Qed.

(** C7, as the code has it.  After attempt [n], for [1 <= n <= 9], a retry
    is scheduled; its delay is the nominal delay
    [e = clamp (1000 * 2^(n-1)) 1000 15000] scaled by a factor within
    [1 - 0.3] and [1 + 0.3], it is at least 1000 ms and at most
    [15000 * 1.3] ms, whatever the rounding of the double arithmetic.  The
    call that makes the tenth attempt schedules no retry. *)
Theorem reconnect_delay (rnd : Q -> Q) (n : Z) (random : Q) :
  rounding rnd -> 1 <= n <= 9 -> (0 <= random)%Q -> (random < 1)%Q ->
  let e := inject_Z (Z.max 1000 (Z.min (1000 * 2 ^ (n - 1)) 15000)) in
  let delay := retryDelay rnd n random in
  tryReconnect rnd (n - 1) random = (n, RetryAfter delay) /\
  (exponentialDelay rnd n == e)%Q /\
  ((7 # 10) * e <= delay)%Q /\
  (delay <= (13 # 10) * e)%Q /\
  (1000 <= delay)%Q /\
  (delay <= 15000 * (13 # 10))%Q /\
  tryReconnect rnd 9 random = (10, ReconnectionFailed).
Proof.
  intros H Hn Hr0 Hr1 e delay.
  pose proof (exponentialDelay_value rnd n H Hn) as He. fold e in He.
  destruct (nominal_delay n Hn) as (h & E1 & Hh & _ & _).
  assert (Eh : (e == inject_Z (4 * h))%Q) by (unfold e; rewrite E1; reflexivity).
  assert (Eh' : (e == 4 * inject_Z h)%Q) by (rewrite Eh, inject_Z_mult; reflexivity).
  assert (Hh1 : (250 <= inject_Z h)%Q).
  { change 250%Q with (inject_Z 250). rewrite <- Zle_Qle. lia. }
  assert (Hh2 : (inject_Z h <= 3750)%Q).
  { change 3750%Q with (inject_Z 3750). rewrite <- Zle_Qle. lia. }
  set (x := exponentialDelay rnd n) in *.
  set (t1 := rnd (x * double_0_3)%Q).
  set (t2 := rnd (random - (1 # 2))%Q).
  set (jitter := rnd (t1 * t2)%Q).
  assert (B1 : (inject_Z 0 <= t1)%Q /\ (t1 <= inject_Z (2 * h))%Q).
  { apply rounding_within; [assumption|lia|lia| |].
    - change (inject_Z 0) with 0%Q. unfold double_0_3. nra.
    - rewrite inject_Z_mult. change (inject_Z 2) with 2%Q.
      unfold double_0_3. nra. }
  rewrite inject_Z_mult in B1. change (inject_Z 0) with 0%Q in B1.
  change (inject_Z 2) with 2%Q in B1.
  assert (B2 : (- (1 # 2) <= t2)%Q /\ (t2 <= 1 # 2)%Q).
  { apply rounding_within_half; [assumption| |]; lra. }
  assert (B3 : (inject_Z (- h) <= jitter)%Q /\ (jitter <= inject_Z h)%Q).
  { apply rounding_within; [assumption|lia|lia| |].
    - rewrite inject_Z_opp. nra.
    - nra. }
  rewrite inject_Z_opp in B3.
  assert (B4 : (inject_Z (3 * h) <= rnd (x + jitter))%Q /\
               (rnd (x + jitter) <= inject_Z (5 * h))%Q).
  { apply rounding_within; [assumption|lia|lia| |].
    - rewrite inject_Z_mult. change (inject_Z 3) with 3%Q. lra.
    - rewrite inject_Z_mult. change (inject_Z 5) with 5%Q. lra. }
  rewrite !inject_Z_mult in B4.
  change (inject_Z 3) with 3%Q in B4. change (inject_Z 5) with 5%Q in B4.
  assert (D : delay = Qmax 1000 (rnd (x + jitter)%Q)) by reflexivity.
  assert (Dlo : (1000 <= delay)%Q) by (rewrite D; apply Q.le_max_l).
  assert (Dlo' : (rnd (x + jitter) <= delay)%Q) by (rewrite D; apply Q.le_max_r).
  assert (Dhi : (delay <= 5 * inject_Z h)%Q).
  { rewrite D. apply Q.max_lub; lra. }
  split; [|split; [|split; [|split; [|split; [|split]]]]].
  - unfold tryReconnect. replace (n - 1 + 1) with n by lia.
    unfold MAX_ATTEMPTS. destruct (n <? 10) eqn:E; [reflexivity|].
    apply Z.ltb_ge in E. lia.
  - exact He.
  - lra.
  - lra.
  - exact Dlo.
  - lra.
  - reflexivity.
Qed.

(** The theorem applies: the third attempt with the draw 1/4, in
    arithmetic without rounding error. *)
Lemma reconnect_delay_witness :
  tryReconnect unrounded 2 (1 # 4)
  = (3, RetryAfter (retryDelay unrounded 3 (1 # 4))) /\
  (retryDelay unrounded 3 (1 # 4) <= (13 # 10) * 4000)%Q.
Proof.
  assert (H1 : rounding unrounded).
  { split; intros; unfold unrounded; [assumption|reflexivity]. }
  assert (H2 : 1 <= 3 <= 9) by lia.
  assert (H3 : (0 <= 1 # 4)%Q) by (vm_compute; discriminate).
  assert (H4 : (1 # 4 < 1)%Q) by (vm_compute; reflexivity).
  pose proof (reconnect_delay unrounded 3 (1 # 4) H1 H2 H3 H4) as H.
  cbv zeta in H. destruct H as (A & _ & _ & B & _).
  split; [exact A|exact B].
Defined.

(** C7 fails at [n = 10]: the tenth attempt schedules no retry, it ends the
    chain with [reconnection_failed]. *)
Lemma tenth_attempt_has_no_delay :
  tryReconnect unrounded 9 (1 # 2) = (10, ReconnectionFailed) /\
  ~ exists delay, (tryReconnect unrounded 9 (1 # 2)).2 = RetryAfter delay.
Proof.
  split; [reflexivity|]. intros [delay H]. discriminate H.
Qed.

(** Under persistent failure the chain makes ten attempts and stops. *)
Lemma reconnectWs_cap (rnd : Q -> Q) (random : Z -> Q) :
  exists delays,
    length delays = 9%nat /\
    reconnectWs rnd 10 random (fun _ => false) 0
    = (RetryAfter <$> delays) ++ [ReconnectionFailed].
Proof.
  exists (map (fun n => retryDelay rnd n (random n)) [1; 2; 3; 4; 5; 6; 7; 8; 9]).
  split; reflexivity.
Qed.

(** *** Destruction *)

Lemma createSocketFromPoll_fields (wsOk : bool) (c : State) :
  destroyed (createSocketFromPoll wsOk c).1 = destroyed c /\
  lastActivity (createSocketFromPoll wsOk c).1 = lastActivity c.
Proof.
  unfold createSocketFromPoll.
  destruct (socket c); [|destruct wsOk]; split; reflexivity.
Qed.

Lemma pollFn_fields (now : Z) (wsOk : bool) (c : State) :
  destroyed (pollFn now wsOk c).1 = destroyed c /\
  lastActivity (pollFn now wsOk c).1 = now.
Proof.
  unfold pollFn.
  pose proof (createSocketFromPoll_fields wsOk (resetLastActivity now c)) as [Hd Hl].
  destruct (createSocketFromPoll wsOk (resetLastActivity now c)) as [c2 evs].
  simpl in Hd, Hl.
  destruct (socket (resetLastActivity now c)) as [[h [] r]|]; simpl; auto.
Qed.

Lemma step_destroyed (c : State) (i : Input) :
  destroyed c = true -> destroyed (step c i).1 = true.
Proof.
  intros H. destruct i as [| | | now | now data | now wsOk]; simpl; try assumption.
  - unfold destroy. by rewrite H.
  - destruct (socket c) as [s|]; [|assumption].
    destruct (handlers s); assumption.
  - destruct (socket c) as [s|]; [|assumption].
    destruct (handlers s); [|assumption].
    destruct (onMessageBody _ _) as [cid d]. simpl. assumption.
  - by rewrite (proj1 (pollFn_fields now wsOk c)).
Qed.

Lemma run_destroyed (inputs : list Input) (c : State) :
  destroyed c = true -> destroyed (run c inputs) = true.
Proof.
  revert c. induction inputs as [|i inputs IH]; intros c H; simpl; [assumption|].
  apply IH. by apply step_destroyed.
Qed.

(** C8, as the code has it.  After [destroy] the flag is set, it stays set
    under every later input, a further [destroy] changes nothing, and
    [fetchApi] issues its request as on a live client. *)
Theorem destroyed_flag_stays (c : State) (inputs : list Input)
    (route : string) (meth body : option string) :
  let d := (destroy c).1 in
  destroyed d = true /\
  destroyed (run d inputs) = true /\
  (destroy d).1 = d /\
  fetchApi d route meth body
  = inr (mkRequest (apiHost c +:+ route) meth body (getCredentialHeaders c) "cors").
Proof.
  intros d.
  assert (Hd : destroyed d = true).
  { subst d. unfold destroy. destruct (destroyed c) eqn:E; [exact E|reflexivity]. }
  split; [exact Hd|]. split; [by apply run_destroyed|]. split.
  - unfold destroy at 1. by rewrite Hd.
  - subst d. unfold destroy, fetchApi, getCredentialHeaders.
    destruct (destroyed c); reflexivity.
Qed.

(** C8 fails for [fetchApi] and for events: on a destroyed client
    [fetchApi] is not refused with [ErrDestroyed] but issues the request,
    and a further [destroy] dispatches two more [log] events. *)
Lemma fetchApi_after_destroy :
  let c := mkState "http://localhost:8188" (Some "id") None 0 true false
                   (Some (mkSocket true OPEN false)) ["status"%string] false false in
  let d := (destroy c).1 in
  destroyed d = true /\
  fetchApi d "/queue" None None
  = inr (mkRequest "http://localhost:8188/queue" None None [] "cors") /\
  fetchApi d "/queue" None None <> inl ErrDestroyed /\
  (step d Destroy).2 = [log "destroy" "Destroying client...";
                        log "destroy" "Client already destroyed"].
Proof. repeat split; try reflexivity. discriminate. Qed.

(** *** Activity time stamp *)

Lemma step_lastActivity (c : State) (i : Input) :
  lastActivity (step c i).1 = lastActivity c \/
  exists now, clock i = Some now /\ lastActivity (step c i).1 = now.
Proof.
  destruct i as [| | | now | now data | now wsOk]; simpl.
  - left. unfold destroy. destruct (destroyed c); reflexivity.
  - by left.
  - by left.
  - destruct (socket c) as [s|]; [|by left].
    destruct (handlers s); [right; eauto|by left].
  - destruct (socket c) as [s|]; [|by left].
    destruct (handlers s); [|by left].
    destruct (onMessageBody _ _) as [cid d]. right; eauto.
  - right. exists now. split; [reflexivity|]. apply pollFn_fields.
Qed.

(** Along a non-decreasing clock the stamp never decreases and never
    passes the clock. *)
Lemma run_lastActivity (inputs : list Input) :
  forall c t, lastActivity c <= t -> nondecreasing t inputs ->
              lastActivity c <= lastActivity (run c inputs).
Proof.
  induction inputs as [|i inputs IH]; intros c t Hc Hnd; simpl; [lia|].
  simpl in Hnd.
  destruct (step_lastActivity c i) as [Heq|(now & Hclock & Hnow)].
  - etransitivity; [|apply (IH (step c i).1 (match clock i with
                                              | Some now => now | None => t end))].
    + lia.
    + rewrite Heq. destruct (clock i); lia.
    + destruct (clock i); tauto.
  - rewrite Hclock in Hnd. destruct Hnd as [Ht Hnd].
    etransitivity; [|apply (IH (step c i).1 now); [lia|assumption]]. lia.
Qed.

Lemma nondecreasing_app (pre post : list Input) :
  forall t, nondecreasing t (pre ++ post) ->
            nondecreasing t pre /\
            exists t', t <= t' /\ nondecreasing t' post /\
                       forall c, lastActivity c <= t ->
                                 lastActivity (run c pre) <= t'.
Proof.
  induction pre as [|i pre IH]; intros t H; simpl in *.
  - split; [exact I|]. exists t. repeat split; [lia|assumption|auto].
  - destruct (clock i) as [now|] eqn:Hclock.
    + destruct H as [Ht H]. destruct (IH now H) as (Hpre & t' & Ht' & Hpost & Hrun).
      split; [by split|]. exists t'. repeat split; [lia|assumption|].
      intros c Hc. apply Hrun.
      destruct (step_lastActivity c i) as [Heq|(now' & Hc' & Hnow)]; [lia|].
      rewrite Hclock in Hc'. inversion Hc'; subst. lia.
    + destruct (IH t H) as (Hpre & t' & Ht' & Hpost & Hrun).
      split; [assumption|]. exists t'. repeat split; [assumption..|].
      intros c Hc. apply Hrun.
      destruct (step_lastActivity c i) as [Heq|(now' & Hc' & Hnow)]; [lia|].
      rewrite Hclock in Hc'. discriminate.
Qed.

(** C9, as the code has it.  With the handlers installed on the socket,
    [lastActivity] becomes the current time on every frame, on the opening
    of the socket and on every successful status poll of the polling
    fallback; the response to a [fetchApi] call leaves it as it is; and
    along a clock that does not run backwards it never decreases. *)
Theorem lastActivity_refresh (c : State) (s : Socket) (inputs : list Input) :
  socket c = Some s -> handlers s = true ->
  nondecreasing (lastActivity c) inputs ->
  (forall now data, lastActivity (step c (SocketMessage now data)).1 = now) /\
  (forall now, lastActivity (step c (SocketOpen now)).1 = now) /\
  (forall now wsOk, lastActivity (step c (PollOk now wsOk)).1 = now) /\
  (forall now st, lastActivity (step c (HttpResponse now st)).1 = lastActivity c) /\
  (forall pre post, inputs = pre ++ post ->
                    lastActivity (run c pre) <= lastActivity (run c inputs)).
Proof.
  intros Hs Hh Hnd. repeat split.
  - intros now data. simpl. rewrite Hs, Hh.
    destruct (onMessageBody _ _) as [cid d]. reflexivity.
  - intros now. simpl. rewrite Hs, Hh. reflexivity.
  - intros now wsOk. simpl. apply pollFn_fields.
  - intros pre post ->. unfold run. rewrite foldl_app. fold (run c pre).
    destruct (nondecreasing_app pre post _ Hnd) as (_ & t' & _ & Hpost & Hrun).
    apply (run_lastActivity post (run c pre) t'); [|assumption].
    apply Hrun. lia.
Qed.

(** The theorem applies: a frame, an HTTP response, a poll. *)
Lemma lastActivity_refresh_witness :
  let c := mkState "http://localhost:8188" (Some "id") None 0 true false
                   (Some (mkSocket true OPEN false)) [] false false in
  nondecreasing (lastActivity c)
                [SocketMessage 10 OtherData; HttpResponse 20 200; PollOk 30 true] /\
  lastActivity (step c (SocketMessage 10 OtherData)).1 = 10 /\
  lastActivity (run c [SocketMessage 10 OtherData])
  <= lastActivity (run c [SocketMessage 10 OtherData; HttpResponse 20 200;
                          PollOk 30 true]).
Proof.
  assert (Hnd : nondecreasing 0 [SocketMessage 10 OtherData; HttpResponse 20 200;
                                 PollOk 30 true]) by (simpl; lia).
  split; [exact Hnd|].
  destruct (lastActivity_refresh
              (mkState "http://localhost:8188" (Some "id") None 0 true false
                       (Some (mkSocket true OPEN false)) [] false false)
              (mkSocket true OPEN false)
              [SocketMessage 10 OtherData; HttpResponse 20 200; PollOk 30 true]
              eq_refl eq_refl Hnd) as (Hmsg & _ & _ & _ & Hmono).
  split; [apply Hmsg|].
  apply (Hmono [SocketMessage 10 OtherData] [HttpResponse 20 200; PollOk 30 true]).
  reflexivity.
Defined.

(** C9 fails for HTTP responses: a successful response to a [fetchApi]
    call at time 5 leaves [lastActivity] at its old value 0. *)
Lemma http_response_does_not_refresh :
  let c := mkState "http://localhost:8188" (Some "id") None 0 true false
                   (Some (mkSocket true OPEN false)) [] false false in
  lastActivity (step c (HttpResponse 5 200)).1 = 0 /\
  lastActivity (step c (HttpResponse 5 200)).1 <> 5.
Proof. split; [reflexivity|]. simpl. lia. Qed.

End ClientSpec.

(** ** The prompt builder *)

Module BuilderSpec.
Import Builder.

Lemma fresh_lookup {A : Type} (m : gmap loc A) : m !! fresh (dom m) = None.
Proof. apply not_elem_of_dom, is_fresh. Qed.

(** *** What [new] and [clone] allocate *)

Lemma new_Returned (s s' : Store) (w : loc) (ik ok : list string) (b : loc) :
  new_PromptBuilder s w ik ok = (s', Returned b) ->
  exists tree mi mo,
    objects s !! w = Some tree /\ b = fresh (dom (builders s)) /\
    s' = mkStore (<[fresh (dom (objects s)):=tree]> (objects s)) (arrays s)
                 (<[b:=mkBuilder (fresh (dom (objects s))) mi mo []]> (builders s)).
Proof.
  unfold new_PromptBuilder. destruct (objects s !! w) as [tree|]; [|discriminate].
  simpl. intros H. inversion H; subst. eauto 10.
Qed.

Lemma new_not_Returned (s : Store) (w : loc) (ik ok : list string) :
  (forall b, (new_PromptBuilder s w ik ok).2 <> Returned b) ->
  new_PromptBuilder s w ik ok = (s, Unmodelled).
Proof.
  unfold new_PromptBuilder. destruct (objects s !! w) as [tree|]; [|reflexivity].
  simpl. intros H. by destruct (H (fresh (dom (builders s)))).
Qed.
















(** *** The caller's workflow *)











(** *** Reserved keys *)

Lemma finish_never_throws (s : Store) (this p : loc) (r : JValue * Status) (e : Error) :
  (finish s this p r).2 <> Threw e.
Proof. unfold finish. simpl. destruct r.2; discriminate. Qed.

(** [inputRaw] throws only when its whole key is one of the three reserved
    names, and then before it has written anything. *)
Lemma inputRaw_Threw (s : Store) (this : loc) (key : string) (value : JValue)
    (encodeOs : option OSType) (e : Error) :
  (inputRaw s this key value encodeOs).2 = Threw e ->
  (key = "__proto__"%string \/ key = "constructor"%string \/
   key = "prototype"%string) /\
  inputRaw s this key value encodeOs = (s, Threw (InvalidKey key)).
Proof.
  unfold inputRaw. destruct (invalidKey key) eqn:E.
  - intros _. split; [|reflexivity]. unfold invalidKey in E.
    apply orb_true_iff in E as [E|E]; [apply orb_true_iff in E as [E|E]|];
      apply String.eqb_eq in E; auto.
  - destruct (builders s !! this) as [B|]; [|discriminate].
    destruct value; try discriminate;
      (destruct (objects s !! prompt B);
       [intros H; by apply finish_never_throws in H|discriminate]).
Qed.

(** C1 fails in the code.  A builder is made on the workflow
    [{"4": {"inputs": {}}}] and the name [seed] is bound, by
    [setInputNode], to the path [4.__proto__.polluted]: [setInputNode]
    returns a builder, and [input("seed", true)] on it returns too, after
    assigning [polluted = true] on [Object.prototype]; with the path
    [4.constructor.polluted] the assignment is made on the function
    [Object].  [inputRaw("4.__proto__.polluted", true)] returns after
    writing [polluted] into node 4 of the workflow, and
    [inputRaw("4.prototype.polluted", true)] after creating the object
    [prototype] there.  No [Invalid key] error is thrown in any of these
    calls: [inputRaw] throws it only when its whole key is [__proto__],
    [constructor] or [prototype]. *)
Theorem reserved_segment_not_refused :
  let node := JObject {[ "inputs"%string := JObject ∅ ]} in
  let s0 := mkStore {[ 0%nat := JObject {[ "4"%string := node ]} ]} ∅ ∅ in
  let s1 := (new_PromptBuilder s0 0%nat ["seed"%string] []).1 in
  let r2 := setInputNode s1 0%nat "seed" (KString "4.__proto__.polluted") in
  let r3 := setInputNode s1 0%nat "seed" (KString "4.constructor.polluted") in
  r2.2 = Returned 1%nat /\
  viewInput r2.1 1%nat "seed" = Some (VString "4.__proto__.polluted") /\
  inputShared r2.1 1%nat "seed" (JBool true) None
  = (r2.1, Returned 1%nat,
     Some (mkSharedWrite ObjectPrototype "polluted" (JBool true))) /\
  r3.2 = Returned 1%nat /\
  inputShared r3.1 1%nat "seed" (JBool true) None
  = (r3.1, Returned 1%nat,
     Some (mkSharedWrite ObjectFunction "polluted" (JBool true))) /\
  inputRaw s1 0%nat "4.__proto__.polluted" (JBool true) None
  = (setObject s1 1%nat
       (JObject {[ "4"%string :=
                     JObject (<["polluted"%string := JBool true]>
                                {[ "inputs"%string := JObject ∅ ]}) ]}),
     Returned 0%nat) /\
  inputRaw s1 0%nat "4.prototype.polluted" (JBool true) None
  = (setObject s1 1%nat
       (JObject {[ "4"%string :=
                     JObject (<["prototype"%string :=
                                  JObject {[ "polluted"%string := JBool true ]}]>
                                {[ "inputs"%string := JObject ∅ ]}) ]}),
     Returned 0%nat) /\
  (forall s this key value encodeOs e,
     (inputRaw s this key value encodeOs).2 = Threw e ->
     key = "__proto__"%string \/ key = "constructor"%string \/
     key = "prototype"%string).
Proof.
  cbv zeta. repeat split; try (vm_compute; reflexivity).
  intros s this key value encodeOs e H.
  exact (proj1 (inputRaw_Threw s this key value encodeOs e H)).
Qed.

End BuilderSpec.

(** ** More on the client pool *)

Module PoolExtra.
Import Pool PoolSpec.

(** *** Selection *)

(** A poll that returns a client returns one that is online and passes the
    id filter, and it changes nothing in the pool but the lock of that
    client and the round-robin cursor. *)
Theorem selection_online_and_accepted (p p' : PoolState)
    (inc exc : option (list string)) (i : nat) :
  NoDup (id <$> clientStates p) ->
  selectOnce p inc exc = (p', Some i) ->
  exists c,
    clientStates p !! i = Some c /\ online c = true /\ accepted inc exc c = true /\
    clientStates p' = <[i:=lock c]> (clientStates p) /\
    mode p' = mode p /\ jobQueue p' = jobQueue p /\ maxQueueSize p' = maxQueueSize p.
Proof.
  intros Hnd Hsel.
  destruct (selectOnce_Some _ _ _ _ _ Hsel) as (k & a & c & _ & Ha & Hc & Hid & Hst).
  assert (Hin : a ∈ filter (fun c => accepted inc exc c = true) (clientStates p))
    by (apply list_elem_of_lookup; eauto).
  apply list_elem_of_filter in Hin as [Hacc Hin].
  assert (c = a) by (eapply lookup_by_id; eauto). subst a.
  exists c. split; [assumption|]. split; [by eapply accepted_online|].
  split; [assumption|]. split.
  - rewrite Hst. apply list_eq. intros j.
    rewrite list_lookup_alter, list_lookup_insert.
    destruct (decide (i = j)) as [->|Hne].
    + rewrite Hc. simpl. rewrite decide_True; [reflexivity|].
      split; [reflexivity|]. by eapply lookup_lt_Some.
    + rewrite decide_False by tauto. reflexivity.
  - unfold selectOnce in Hsel. destruct (pickIndex _ _ _) as [index r].
    destruct (index ≫= _); [|discriminate].
    destruct (findIndex _ _); [|discriminate].
    inversion Hsel; subst. simpl. auto.
Qed.

Lemma selection_online_and_accepted_witness :
  let p := mkPool [mkClientState "a" 3 false false; mkClientState "b" 2 true true]
                  PICK_LOWEST [] (Some 0%nat) 1000 in
  exists c,
    clientStates p !! 1%nat = Some c /\ online c = true /\
    accepted None (Some ["a"%string]) c = true /\
    clientStates (selectOnce p None (Some ["a"%string])).1
    = <[1%nat:=lock c]> (clientStates p) /\
    mode (selectOnce p None (Some ["a"%string])).1 = mode p /\
    jobQueue (selectOnce p None (Some ["a"%string])).1 = jobQueue p /\
    maxQueueSize (selectOnce p None (Some ["a"%string])).1 = maxQueueSize p.
Proof.
  apply (selection_online_and_accepted
           (mkPool [mkClientState "a" 3 false false; mkClientState "b" 2 true true]
                   PICK_LOWEST [] (Some 0%nat) 1000)
           _ None (Some ["a"%string]) 1%nat).
  - simpl. apply NoDup_cons. split; [|apply NoDup_singleton].
    rewrite list_elem_of_In. simpl. intros [H|[]]. discriminate.
  - reflexivity.
Defined.

Lemma minimum_le (x : Z) (xs : list Z) :
  minimum x xs <= x /\ Forall (fun y => minimum x xs <= y) xs.
Proof.
  unfold minimum. induction xs as [|y xs [IH1 IH2]]; simpl.
  - split; [lia|constructor].
  - split; [lia|]. constructor; [lia|].
    eapply Forall_impl; [exact IH2|]. simpl. intros; lia.
Qed.

(** In mode [PICK_LOWEST] the client returned has the least
    [queueRemaining] among the accepted clients, and is the first of them
    (in the order of [clientStates]) with that value. *)
Theorem pick_lowest_is_minimal (p p' : PoolState)
    (inc exc : option (list string)) (i : nat) :
  mode p = PICK_LOWEST ->
  NoDup (id <$> clientStates p) ->
  selectOnce p inc exc = (p', Some i) ->
  let acceptedClients := filter (fun c => accepted inc exc c = true) (clientStates p) in
  exists k c,
    clientStates p !! i = Some c /\ acceptedClients !! k = Some c /\
    (forall a, a ∈ acceptedClients -> queueRemaining c <= queueRemaining a) /\
    (forall j a, (j < k)%nat -> acceptedClients !! j = Some a ->
                 queueRemaining c < queueRemaining a).
Proof.
  intros Hmode Hnd Hsel acceptedClients.
  destruct (selectOnce_Some _ _ _ _ _ Hsel) as (k & a & c & Hk & Ha & Hc & Hid & _).
  fold acceptedClients in Hk, Ha.
  assert (Hin : a ∈ acceptedClients) by (apply list_elem_of_lookup; eauto).
  pose proof Hin as Hin'. apply list_elem_of_filter in Hin' as [_ Hin'].
  assert (c = a) by (eapply lookup_by_id; eauto). subst a.
  assert (Hsizes : map (fun st => if online st then queueRemaining st
                                  else MAX_SAFE_INTEGER) acceptedClients
                   = map queueRemaining acceptedClients).
  { apply map_ext_in. intros a Ha'. apply list_elem_of_In in Ha'.
    apply list_elem_of_filter in Ha' as [Hacc _].
    by rewrite (accepted_online _ _ _ Hacc). }
  rewrite Hmode in Hk. unfold pickIndex in Hk. cbn [fst] in Hk.
  rewrite Hsizes in Hk.
  destruct (map queueRemaining acceptedClients) as [|x xs] eqn:Hq; [discriminate|].
  destruct (findIndex_Some _ _ _ Hk) as (v & Hv & Hmin & Hfirst).
  apply Z.eqb_eq in Hmin.
  assert (Hvc : v = queueRemaining c).
  { rewrite <- Hq in Hv. rewrite list_lookup_fmap, Ha in Hv. by inversion Hv. }
  destruct (minimum_le x xs) as [Hx Hxs].
  exists k, c. repeat split; try assumption.
  - intros a Ha'. apply list_elem_of_lookup in Ha' as [j Hj].
    assert (Hqa : (x :: xs) !! j = Some (queueRemaining a)).
    { rewrite <- Hq. rewrite list_lookup_fmap, Hj. reflexivity. }
    rewrite <- Hvc, <- Hmin.
    destruct j as [|j]; simpl in Hqa.
    + inversion Hqa; subst. assumption.
    + rewrite Forall_forall in Hxs. apply Hxs. apply list_elem_of_lookup. eauto.
  - intros j a Hj Hja.
    assert (Hqa : (x :: xs) !! j = Some (queueRemaining a)).
    { rewrite <- Hq. rewrite list_lookup_fmap, Hja. reflexivity. }
    specialize (Hfirst j _ Hj Hqa). apply Z.eqb_neq in Hfirst.
    assert (minimum x xs <= queueRemaining a).
    { destruct j as [|j]; simpl in Hqa.
      - inversion Hqa; subst. assumption.
      - rewrite Forall_forall in Hxs. apply Hxs. apply list_elem_of_lookup. eauto. }
    lia.
Qed.

Lemma pick_lowest_is_minimal_witness :
  let p := mkPool [mkClientState "a" 3 false true; mkClientState "b" 2 true true;
                   mkClientState "c" 2 false true]
                  PICK_LOWEST [] (Some 0%nat) 1000 in
  exists k c,
    clientStates p !! 1%nat = Some c /\
    filter (fun c => accepted None None c = true) (clientStates p) !! k = Some c /\
    (forall a, a ∈ filter (fun c => accepted None None c = true) (clientStates p) ->
               queueRemaining c <= queueRemaining a) /\
    (forall j a, (j < k)%nat ->
                 filter (fun c => accepted None None c = true) (clientStates p) !! j
                 = Some a ->
                 queueRemaining c < queueRemaining a).
Proof.
  eapply (pick_lowest_is_minimal
           (mkPool [mkClientState "a" 3 false true; mkClientState "b" 2 true true;
                    mkClientState "c" 2 false true]
                   PICK_LOWEST [] (Some 0%nat) 1000)
           _ None None 1%nat).
  - reflexivity.
  - simpl. repeat (apply NoDup_cons; split); try apply NoDup_nil_2;
      rewrite list_elem_of_In; simpl; intuition discriminate.
  - reflexivity.
Defined.

(** *** The round-robin cursor *)

Lemma getAvailableClient_nan (polls : nat)
    (world : nat -> list ClientState -> list ClientState)
    (inc exc : option (list string)) :
  forall t p,
    mode p = PICK_ROUTINE -> routineIdx p = None ->
    (getAvailableClient polls world t p inc exc).1.2 = None /\
    routineIdx (getAvailableClient polls world t p inc exc).1.1 = None.
Proof.
  induction polls as [|k IH]; intros t p Hm Hr; simpl; [by split|].
  unfold selectOnce. simpl. rewrite Hm, Hr. simpl.
  apply IH; reflexivity.
Qed.

(** In mode [PICK_ROUTINE], a poll that finds no accepted client turns
    [routineIdx] into [NaN]; and once [routineIdx] is [NaN],
    [getAvailableClient] never returns a client again in this mode,
    however long it polls and whatever happens to the client states. *)
Theorem routine_cursor_nan (p : PoolState) (inc exc : option (list string)) :
  mode p = PICK_ROUTINE ->
  (filter (fun c => accepted inc exc c = true) (clientStates p) = [] ->
   (selectOnce p inc exc).2 = None /\ routineIdx (selectOnce p inc exc).1 = None) /\
  (routineIdx p = None ->
   forall polls world t inc' exc',
     (getAvailableClient polls world t p inc' exc').1.2 = None /\
     routineIdx (getAvailableClient polls world t p inc' exc').1.1 = None).
Proof.
  intros Hm. split.
  - intros Hempty. unfold selectOnce. rewrite Hm, Hempty. simpl.
    destruct (routineIdx p); by split.
  - intros Hr polls world t inc' exc'. by apply getAvailableClient_nan.
Qed.

Lemma routine_cursor_nan_witness :
  let p := mkPool [mkClientState "a" 0 false false] PICK_ROUTINE [] (Some 0%nat) 1000 in
  let p1 := (selectOnce p None None).1 in
  routineIdx p1 = None /\
  (getAvailableClient 7 (fun _ _ => [mkClientState "a" 0 false true]) 0 p1 None None).1.2
  = None.
Proof.
  split; [reflexivity|].
  apply (proj2 (routine_cursor_nan
                  (selectOnce (mkPool [mkClientState "a" 0 false false] PICK_ROUTINE []
                                      (Some 0%nat) 1000) None None).1
                  None None eq_refl) eq_refl
               7%nat (fun _ _ => [mkClientState "a" 0 false true]) 0%nat None None).
Defined.

Lemma filter_all {A : Type} (P : A -> Prop) `{forall x, Decision (P x)} (l : list A) :
  Forall P l -> filter P l = l.
Proof.
  induction 1 as [|x l Hx Hl IH]; [reflexivity|].
  rewrite filter_cons_True by assumption. by rewrite IH.
Qed.

Lemma findIndex_by_id (cs : list ClientState) :
  forall i a, NoDup (id <$> cs) -> cs !! i = Some a ->
              findIndex (fun c => String.eqb (id c) (id a)) cs = Some i.
Proof.
  induction cs as [|c cs IH]; intros i a Hnd Hi; [by rewrite lookup_nil in Hi|].
  simpl in Hnd. apply NoDup_cons in Hnd as [Hc Hnd].
  destruct i as [|i]; simpl in *.
  - inversion Hi; subst. by rewrite String.eqb_refl.
  - destruct (String.eqb (id c) (id a)) eqn:E.
    + apply String.eqb_eq in E. exfalso. apply Hc. rewrite E.
      apply list_elem_of_fmap. exists a. split; [reflexivity|].
      apply list_elem_of_lookup. eauto.
    + by rewrite (IH i a Hnd Hi).
Qed.

Lemma alter_lock_ids (i : nat) (cs : list ClientState) :
  id <$> alter lock i cs = id <$> cs.
Proof.
  apply list_eq. intros j. rewrite !list_lookup_fmap, list_lookup_alter.
  destruct (decide (i = j)) as [->|]; [|reflexivity]. by destruct (cs !! j).
Qed.

Lemma alter_lock_online (i : nat) (cs : list ClientState) :
  Forall (fun c => online c = true) cs ->
  Forall (fun c => online c = true) (alter lock i cs).
Proof.
  intros H. apply Forall_lookup. intros j c. rewrite list_lookup_alter.
  rewrite Forall_lookup in H.
  destruct (decide (i = j)) as [->|]; [|apply H].
  destruct (cs !! j) as [c0|] eqn:E; simpl; [|discriminate].
  intros Hc. inversion Hc; subst. simpl. by eapply H.
Qed.

(** One round-robin poll when every client is online and no filter is
    given. *)
Lemma selectOnce_routine (p : PoolState) (r : nat) :
  mode p = PICK_ROUTINE -> routineIdx p = Some r ->
  Forall (fun c => online c = true) (clientStates p) ->
  NoDup (id <$> clientStates p) -> clientStates p <> [] ->
  selectOnce p None None
  = (mkPool (alter lock (r mod length (clientStates p))%nat (clientStates p))
            PICK_ROUTINE (jobQueue p)
            (Some ((r + 1) mod length (clientStates p))%nat) (maxQueueSize p),
     Some (r mod length (clientStates p))%nat).
Proof.
  intros Hm Hr Hon Hnd Hne. unfold selectOnce.
  rewrite (filter_all (fun c => accepted None None c = true)).
  2:{ eapply Forall_impl; [exact Hon|]. intros c Hc. unfold accepted. by rewrite Hc. }
  rewrite Hm, Hr. unfold pickIndex.
  destruct (clientStates p) as [|c0 cs] eqn:Hcs; [done|].
  change (length (c0 :: cs)) with (S (length cs)).
  assert (Hlt : (r mod S (length cs) < length (c0 :: cs))%nat).
  { change (length (c0 :: cs)) with (S (length cs)).
    apply Nat.mod_upper_bound. lia. }
  destruct (lookup_lt_is_Some_2 _ _ Hlt) as [a Ha].
  cbn [mbind option_bind]. rewrite Ha.
  rewrite (findIndex_by_id _ _ _ Hnd Ha). reflexivity.
Qed.

(** Round robin: in mode [PICK_ROUTINE], with every client online, ids
    pairwise distinct and no filter, [k] polls in a row return the clients
    at the indices [r], [r+1], ... modulo the number of clients, where [r]
    is the cursor at the start. *)
Theorem routine_round_robin (k : nat) :
  forall (p : PoolState) (r : nat),
    mode p = PICK_ROUTINE -> routineIdx p = Some r ->
    Forall (fun c => online c = true) (clientStates p) ->
    NoDup (id <$> clientStates p) -> clientStates p <> [] ->
    (selectMany k p None None).1
    = map (fun j => Some ((r + j) mod length (clientStates p))%nat) (seq 0 k).
Proof.
  induction k as [|k IH]; intros p r Hm Hr Hon Hnd Hne; [reflexivity|].
  simpl. rewrite (selectOnce_routine p r Hm Hr Hon Hnd Hne).
  set (n := length (clientStates p)).
  assert (Hn : n <> 0%nat).
  { unfold n. destruct (clientStates p); [done|simpl; lia]. }
  specialize (IH (mkPool (alter lock (r mod n)%nat (clientStates p)) PICK_ROUTINE
                         (jobQueue p) (Some ((r + 1) mod n)%nat) (maxQueueSize p))
                 ((r + 1) mod n)%nat eq_refl eq_refl).
  simpl in IH. rewrite alter_lock_ids, length_alter in IH. fold n in IH.
  specialize (IH (alter_lock_online _ _ Hon) Hnd).
  destruct (selectMany k _ None None) as [rs p''] eqn:Hrs. simpl in *.
  rewrite IH.
  2:{ intros Hnil. apply (f_equal length) in Hnil. rewrite length_alter in Hnil.
      simpl in Hnil. fold n in Hnil. lia. }
  rewrite Nat.add_0_r. f_equal.
  rewrite <- seq_shift, map_map. apply map_ext. intros j. f_equal.
  rewrite Nat.Div0.add_mod_idemp_l. f_equal. lia.
Qed.

Lemma routine_round_robin_witness :
  let p := mkPool [mkClientState "a" 0 false true; mkClientState "b" 5 true true;
                   mkClientState "c" 1 false true]
                  PICK_ROUTINE [] (Some 1%nat) 1000 in
  (selectMany 5 p None None).1
  = [Some 1%nat; Some 2%nat; Some 0%nat; Some 1%nat; Some 2%nat].
Proof.
  apply (routine_round_robin 5
           (mkPool [mkClientState "a" 0 false true; mkClientState "b" 5 true true;
                    mkClientState "c" 1 false true]
                   PICK_ROUTINE [] (Some 1%nat) 1000) 1%nat eq_refl eq_refl).
  - repeat constructor.
  - simpl. repeat (apply NoDup_cons; split); try apply NoDup_nil_2;
      rewrite list_elem_of_In; simpl; intuition discriminate.
  - discriminate.
Defined.

(** *** More on failover *)

Section FailoverMore.
Variable polls : nat.
Variable world : nat -> list ClientState -> list ClientState.
Variable job : nat -> Z -> bool.
Variable w : option Z.
Variable inc : option (list string).
Variables maxR delay : Z.
Variable onlineLen : nat.

Lemma tryExecute_no_failover (fuel : nat) (t : nat) (p : PoolState)
    (E : list string) (attempt : Z) :
  let r := tryExecute fuel polls world job w inc false maxR delay onlineLen
                      t p E attempt in
  (invocations r.1 <= 1)%nat /\
  Forall (fun e => isSetTimeout e = false) r.1 /\
  Forall (fun e => forall i b a m, e = ExecutionError i b a m -> b = false) r.1.
Proof.
  intros r. subst r. unfold invocations.
  destruct fuel as [|fuel]; simpl;
    [repeat split; try lia; repeat constructor|].
  destruct (claim _ _ _ _ _) as [|[[p1 jobIdx] iw]]; simpl;
    [repeat split; try lia; repeat constructor|].
  destruct (shift p1) as [[j|] p2]; simpl;
    [|repeat split; try lia; repeat constructor; intros; congruence].
  destruct (negb _); simpl;
    [repeat split; try lia; repeat constructor; intros; congruence|].
  destruct (getAvailableClient _ _ _ _ _ _) as [[p3 [idx|]] t']; simpl;
    [|repeat split; try lia; repeat constructor; intros; congruence].
  destruct (job idx (attempt + 1)); simpl;
    repeat split; try lia; repeat constructor; intros; congruence.
Qed.

(** The retry guard [onlineClients.length > excludedIds.length] bounds the
    calls of the job by the clients that were online at the start. *)
Lemma tryExecute_online_bound (failover : bool) (fuel : nat) :
  forall t p E attempt,
    (invocations (tryExecute fuel polls world job w inc failover maxR delay
                             onlineLen t p E attempt).1
     <= Nat.max 1 (onlineLen + 1 - length E))%nat.
Proof.
  unfold invocations.
  induction fuel as [|fuel IH]; intros t p E attempt; simpl; [lia|].
  destruct (claim _ _ _ _ _) as [|[[p1 jobIdx] iw]]; simpl; [lia|].
  destruct (shift p1) as [[j|] p2]; simpl; [|lia].
  destruct (negb _); simpl; [lia|].
  destruct (getAvailableClient _ _ _ _ _ _) as [[p3 [idx|]] t']; simpl; [|lia].
  destruct (job idx (attempt + 1)); simpl; [lia|].
  destruct (failover && (attempt + 1 <? maxR) && _) eqn:Hretry; simpl; [|lia].
  apply andb_true_iff in Hretry as [_ Hlen]. apply Nat.ltb_lt in Hlen.
  specialize (IH t' p3 (E ++ [default ""%string (id <$> clientStates p3 !! idx)])
                 (attempt + 1)).
  rewrite length_app in IH. simpl in IH.
  destruct (tryExecute _ _ _ _ _ _ _ _ _ _ _ _ _ _) as [evs out]. simpl in *.
  lia.
Qed.

End FailoverMore.

(** With [enableFailover: false] the job is called at most once, no retry
    timer is set, and every [execution_error] event of the run says
    [willRetry: false]. *)
Theorem run_without_failover (fuel polls : nat)
    (world : nat -> list ClientState -> list ClientState)
    (job : nat -> Z -> bool) (p : PoolState) (w : option Z)
    (inc exc : option (list string)) (mr rd : option Z) :
  let r := run fuel polls world job p w inc exc (mkRunOptions (Some false) mr rd) in
  (invocations r.1 <= 1)%nat /\
  Forall (fun e => isSetTimeout e = false) r.1 /\
  Forall (fun e => forall i b a m, e = ExecutionError i b a m -> b = false) r.1.
Proof. unfold run. simpl. apply tryExecute_no_failover. Qed.

(** Whatever [maxRetries] says, a run calls the job at most
    [n + 1 - e] times (and at most once if that is less), where [n] is the
    number of clients online when [run] was called and [e] the number of
    ids in the initial [excludeIds]. *)
Theorem run_online_bound (fuel polls : nat)
    (world : nat -> list ClientState -> list ClientState)
    (job : nat -> Z -> bool) (p : PoolState) (w : option Z)
    (inc exc : option (list string)) (o : RunOptions) :
  (invocations (run fuel polls world job p w inc exc o).1
   <= Nat.max 1 (length (onlineClients p) + 1
                 - length (match exc with Some l => l | None => [] end)))%nat.
Proof. unfold run. apply tryExecute_online_bound. Qed.

(** *** The size of the queue *)

Lemma pushJobByWeight_length (q : list JobItem) (item : JobItem) :
  length (pushJobByWeight q item).1 = S (length q).
Proof.
  destruct (pushJobByWeight_split q item) as (l1 & l2 & -> & -> & _).
  rewrite !length_app. simpl. lia.
Qed.

Lemma applyOp_bound (p : PoolState) (n : nat) (op : QueueOp) :
  Z.of_nat (length (jobQueue p)) <= Z.max 0 (maxQueueSize p) ->
  Z.of_nat (length (jobQueue (applyOp p n op))) <= Z.max 0 (maxQueueSize p) /\
  maxQueueSize (applyOp p n op) = maxQueueSize p.
Proof.
  intros H. destruct op as [w inc exc|]; simpl.
  - unfold claim. destruct (_ >=? _) eqn:E; [by split|].
    rewrite Z.geb_leb in E. apply Z.leb_gt in E.
    pose proof (pushJobByWeight_length (jobQueue p)
                  (mkJobItem (match w with
                              | None => Z.of_nat (length (jobQueue p))
                              | Some w => w
                              end) inc exc n)) as Hlen.
    destruct (pushJobByWeight _ _) as [q idx]. simpl in *. split; [lia|reflexivity].
  - unfold shift. destruct (jobQueue p) as [|j q] eqn:Hq; simpl.
    + rewrite Hq. simpl in *. split; [lia|reflexivity].
    + simpl in H. split; [lia|reflexivity].
Qed.

(** The queue of a new pool never holds more than [maxQueueSize] jobs,
    whatever jobs are claimed and shifted; a [claim] on a full queue is
    refused and leaves the pool as it is. *)
Theorem jobQueue_bounded (cs : list ClientState) (m : EQueueMode)
    (r : option nat) (maxQ : Z) (ops : list QueueOp) :
  let p := applyOps (mkPool cs m [] r maxQ) 0 ops in
  Z.of_nat (length (jobQueue p)) <= Z.max 0 maxQ /\
  (forall f w inc exc,
      maxQ <= Z.of_nat (length (jobQueue p)) ->
      claim p f w inc exc = inl JobQueueLimitReached) /\
  (forall f w inc exc,
      Z.of_nat (length (jobQueue p)) < maxQ ->
      exists p' idx iw, claim p f w inc exc = inr (p', idx, iw) /\
                        length (jobQueue p') = S (length (jobQueue p))).
Proof.
  intros p.
  assert (Hinv : forall ops n p0,
             Z.of_nat (length (jobQueue p0)) <= Z.max 0 (maxQueueSize p0) ->
             Z.of_nat (length (jobQueue (applyOps p0 n ops))) <= Z.max 0 (maxQueueSize p0)
             /\ maxQueueSize (applyOps p0 n ops) = maxQueueSize p0).
  { clear. induction ops as [|op ops IH]; intros n p0 H; simpl; [by split|].
    destruct (applyOp_bound p0 n op H) as [H1 H2].
    rewrite <- H2 in H1. destruct (IH (S n) _ H1) as [H3 H4].
    rewrite H2 in H3, H4. by split. }
  destruct (Hinv ops 0%nat (mkPool cs m [] r maxQ)) as [Hlen Hmax]; [simpl; lia|].
  simpl in Hlen, Hmax. fold p in Hlen, Hmax.
  split; [assumption|]. split.
  - intros f w inc exc Hfull. unfold claim. rewrite Hmax.
    destruct (_ >=? _) eqn:E; [reflexivity|].
    rewrite Z.geb_leb in E. apply Z.leb_gt in E. lia.
  - intros f w inc exc Hroom. unfold claim. rewrite Hmax.
    destruct (_ >=? _) eqn:E.
    + apply Z.geb_le in E. lia.
    + pose proof (pushJobByWeight_length (jobQueue p)
                    (mkJobItem (match w with
                                | None => Z.of_nat (length (jobQueue p))
                                | Some w => w
                                end) inc exc f)) as Hl.
      destruct (pushJobByWeight _ _) as [q idx]. simpl in *. eauto.
Qed.

(** *** Locks and events *)

Lemma handleEvent_fields (m : EQueueMode) (ev : ClientEvent) (st : ClientState) :
  id (handleEvent m ev st).1 = id st /\
  (locked (handleEvent m ev st).1 = true -> locked st = true) /\
  (m = PICK_ZERO -> isStatus ev = true ->
   locked (handleEvent m ev st).1 = locked st).
Proof.
  destruct ev as [[q|]| | | | | | | | | |]; simpl; repeat split; auto;
    try discriminate; destruct m; simpl; auto; discriminate.
Qed.

Lemma deliver_status (evs : list (nat * ClientEvent)) :
  forall cs,
    Forall (fun e => isStatus e.2 = true) evs ->
    id <$> deliver PICK_ZERO evs cs = id <$> cs /\
    locked <$> deliver PICK_ZERO evs cs = locked <$> cs.
Proof.
  unfold deliver. induction evs as [|[i ev] evs IH]; intros cs H; simpl; [by split|].
  inversion H as [|? ? Hev Hrest]; subst. simpl in Hev.
  destruct (IH (alter (fun st => (handleEvent PICK_ZERO ev st).1) i cs) Hrest)
    as [IH1 IH2].
  rewrite IH1, IH2. split; apply list_eq; intros j;
    rewrite !list_lookup_fmap, list_lookup_alter;
    (destruct (decide (i = j)) as [->|]; [|reflexivity]);
    (destruct (cs !! j) as [st|]; [|reflexivity]); simpl; f_equal;
    apply (handleEvent_fields PICK_ZERO ev st); auto.
Qed.

(** No handler of [initializeClient] ever sets a lock, and none changes an
    id.  In mode [PICK_ZERO] a client handed out by [getAvailableClient]
    is not handed out again as long as nothing but [status] frames arrive,
    on whichever clients: only the terminal events unlock it. *)
Theorem busy_client_not_reselected (p p1 : PoolState)
    (inc exc inc' exc' : option (list string)) (i : nat)
    (evs : list (nat * ClientEvent)) :
  mode p = PICK_ZERO ->
  NoDup (id <$> clientStates p) ->
  selectOnce p inc exc = (p1, Some i) ->
  Forall (fun e => isStatus e.2 = true) evs ->
  (forall m ev st, id (handleEvent m ev st).1 = id st /\
                   (locked (handleEvent m ev st).1 = true -> locked st = true)) /\
  (selectOnce (withStates p1 (deliver PICK_ZERO evs (clientStates p1))) inc' exc').2
  <> Some i.
Proof.
  intros Hm Hnd Hsel Hst. split.
  { intros m ev st. destruct (handleEvent_fields m ev st) as (H1 & H2 & _). by split. }
  destruct (selectOnce_Some _ _ _ _ _ Hsel) as (_ & _ & c & _ & _ & Hc & _ & Hcs1).
  assert (Hm1 : mode p1 = PICK_ZERO).
  { unfold selectOnce in Hsel. destruct (pickIndex _ _ _) as [index r].
    destruct (index ≫= _); [|discriminate].
    destruct (findIndex _ _); [|discriminate]. inversion Hsel; subst. exact Hm. }
  destruct (deliver_status evs (clientStates p1) Hst) as [Hids Hlocks].
  set (cs2 := deliver PICK_ZERO evs (clientStates p1)) in *.
  destruct (selectOnce (withStates p1 cs2) inc' exc') as [p2 [i2|]] eqn:Hsel2;
    simpl; [|discriminate].
  intros Heq. inversion Heq; subst i2. clear Heq.
  destruct (selectOnce_Some _ _ _ _ _ Hsel2) as (k & a & c2 & Hk & Ha & Hc2 & Hid & _).
  simpl in Hk, Ha, Hc2.
  assert (Hnd2 : NoDup (id <$> cs2)) by (rewrite Hids, Hcs1, alter_lock_ids; exact Hnd).
  assert (Hin : a ∈ filter (fun c => accepted inc' exc' c = true) cs2)
    by (apply list_elem_of_lookup; eauto).
  apply list_elem_of_filter in Hin as [_ Hin].
  assert (c2 = a) by (eapply lookup_by_id; eauto). subst a.
  rewrite Hm1 in Hk. unfold pickIndex in Hk. cbn [fst] in Hk.
  destruct (findIndex_Some _ _ _ Hk) as (x & Hx & Hpx & _).
  rewrite Ha in Hx. inversion Hx; subst x.
  apply andb_true_iff in Hpx as [Hpx _]. apply andb_true_iff in Hpx as [_ Hl].
  apply negb_true_iff in Hl.
  assert (Hl2 : (locked <$> cs2) !! i = Some true).
  { rewrite Hlocks, Hcs1, list_lookup_fmap, list_lookup_alter.
    rewrite decide_True by reflexivity. rewrite Hc. reflexivity. }
  rewrite list_lookup_fmap, Hc2 in Hl2. simpl in Hl2. congruence.
Qed.

Lemma busy_client_not_reselected_witness :
  let p := mkPool [mkClientState "a" 0 false true; mkClientState "b" 0 false true]
                  PICK_ZERO [] (Some 0%nat) 1000 in
  let p1 := (selectOnce p None None).1 in
  let evs := [(0%nat, EvStatus (Some 0)); (1%nat, EvStatus (Some 3));
              (0%nat, EvStatus None)] in
  (selectOnce p None None).2 = Some 0%nat /\
  (selectOnce (withStates p1 (deliver PICK_ZERO evs (clientStates p1))) None None).2
  <> Some 0%nat.
Proof.
  split; [reflexivity|].
  eapply (proj2 (busy_client_not_reselected
                   (mkPool [mkClientState "a" 0 false true;
                            mkClientState "b" 0 false true]
                           PICK_ZERO [] (Some 0%nat) 1000)
                   _ None None None None 0%nat
                   [(0%nat, EvStatus (Some 0)); (1%nat, EvStatus (Some 3));
                    (0%nat, EvStatus None)] eq_refl _ eq_refl _)).
  Unshelve.
  - simpl. apply NoDup_cons. split; [|apply NoDup_singleton].
    rewrite list_elem_of_In. simpl. intros [H|[]]. discriminate.
  - repeat constructor.
Defined.

End PoolExtra.

(** ** More on the backend client *)

Module ClientExtra.
Import Client ClientSpec.

(** *** The reconnection chain *)

Lemma reconnectWs_from (rnd : Q -> Q) (random : Z -> Q) (up : Z -> bool)
    (fuel : nat) :
  forall a, 0 <= a <= 9 -> (Z.to_nat (10 - a) <= fuel)%nat ->
    (length (reconnectWs rnd fuel random up a) <= Z.to_nat (10 - a))%nat /\
    ((forall n, a < n <= 9 -> up n = false) ->
     reconnectWs rnd fuel random up a = delays rnd random a (9 - a) ++ [ReconnectionFailed]) /\
    (forall n, a < n <= 9 -> up n = true -> (forall k, a < k < n -> up k = false) ->
               reconnectWs rnd fuel random up a = delays rnd random a (n - a)).
Proof.
  induction fuel as [|fuel IH]; intros a Ha Hfuel; [lia|].
  simpl. unfold tryReconnect, MAX_ATTEMPTS.
  destruct (a + 1 <? 10) eqn:E.
  - apply Z.ltb_lt in E.
    destruct (IH (a + 1) ltac:(lia) ltac:(lia)) as (IHlen & IHfail & IHup).
    split; [|split].
    + destruct (up (a + 1)); simpl; lia.
    + intros Hdown. rewrite (Hdown (a + 1)) by lia.
      rewrite IHfail by (intros n Hn; apply Hdown; lia).
      unfold delays. rewrite (seqZ_cons (a + 1) (9 - a)) by lia.
      replace (a + 1 + 1) with (Z.succ (a + 1)) by lia.
      replace (9 - (a + 1)) with (Z.pred (9 - a)) by lia. reflexivity.
    + intros n Hn Hup Hbefore.
      destruct (decide (n = a + 1)) as [->|Hne].
      * rewrite Hup. unfold delays.
        replace (a + 1 - a) with 1 by lia. reflexivity.
      * rewrite (Hbefore (a + 1)) by lia.
        rewrite (IHup n) by (try lia; try assumption; intros k Hk; apply Hbefore; lia).
        unfold delays. rewrite (seqZ_cons (a + 1) (n - a)) by lia.
        replace (a + 1 + 1) with (Z.succ (a + 1)) by lia.
        replace (n - (a + 1)) with (Z.pred (n - a)) by lia. reflexivity.
  - apply Z.ltb_ge in E. assert (a = 9) by lia. subst a.
    split; [simpl; lia|]. split.
    + intros _. reflexivity.
    + intros n Hn. lia.
Qed.

(** [reconnectWs] makes at most ten attempts.  If no timer finds the
    socket open or connecting, it schedules nine retries and ends with
    [reconnection_failed]; if the timer after attempt [n] is the first to
    find it so, the chain stops after [n] attempts without
    [reconnection_failed].  This holds for every rounding [rnd] of the delay
    arithmetic. *)
Theorem reconnect_chain (rnd : Q -> Q) (random : Z -> Q) (up : Z -> bool)
    (fuel : nat) :
  (10 <= fuel)%nat ->
  (length (reconnectWs rnd fuel random up 0) <= 10)%nat /\
  ((forall n, 1 <= n <= 9 -> up n = false) ->
   reconnectWs rnd fuel random up 0 = delays rnd random 0 9 ++ [ReconnectionFailed]) /\
  (forall n, 1 <= n <= 9 -> up n = true -> (forall k, 1 <= k < n -> up k = false) ->
             reconnectWs rnd fuel random up 0 = delays rnd random 0 n /\
             ReconnectionFailed ∉ reconnectWs rnd fuel random up 0).
Proof.
  intros Hfuel.
  destruct (reconnectWs_from rnd random up fuel 0 ltac:(lia) ltac:(simpl; lia))
    as (Hlen & Hfail & Hup).
  split; [exact Hlen|]. split.
  - intros Hdown. apply Hfail. intros n Hn. apply Hdown. lia.
  - intros n Hn Hupn Hbefore.
    assert (Heq : reconnectWs rnd fuel random up 0 = delays rnd random 0 n).
    { rewrite (Hup n) by (try lia; try assumption; intros k Hk; apply Hbefore; lia).
      f_equal. lia. }
    split; [exact Heq|]. rewrite Heq. unfold delays.
    intros Hin. apply list_elem_of_fmap in Hin as (k & Hk & _). discriminate.
Qed.

Lemma reconnect_chain_witness :
  length (reconnectWs unrounded 12 (fun _ => 1 # 2) (fun n => n =? 3) 0) = 3%nat /\
  ReconnectionFailed ∉ reconnectWs unrounded 12 (fun _ => 1 # 2) (fun n => n =? 3) 0.
Proof.
  split; [reflexivity|].
  apply (proj2 (proj2 (reconnect_chain unrounded (fun _ => 1 # 2) (fun n => n =? 3) 12
                                       ltac:(lia))) 3).
  - lia.
  - reflexivity.
  - intros k Hk. apply Z.eqb_neq. lia.
Defined.

(** *** After [destroy] *)




(** *** [pingSuccess] *)

Lemma pingLoop_all_fail (maxTries : Z) (answers : nat -> bool) (fuel : nat) :
  (forall k, answers k = false) ->
  forall tries pings,
    0 <= tries <= maxTries + 1 ->
    (Z.to_nat (maxTries + 2 - tries) <= fuel)%nat ->
    pingLoop fuel maxTries answers tries pings false
    = PingFailed (pings + Z.to_nat (maxTries + 1 - tries)).
Proof.
  intros Hall. induction fuel as [|fuel IH]; intros tries pings Ht Hfuel; [lia|].
  simpl. destruct (maxTries <? tries) eqn:E.
  - apply Z.ltb_lt in E. f_equal. lia.
  - apply Z.ltb_ge in E. rewrite Hall.
    rewrite IH by lia. f_equal. lia.
Qed.

Lemma pingLoop_ok (maxTries : Z) (answers : nat -> bool) (fuel : nat) :
  forall tries pings ping n,
    pingLoop fuel maxTries answers tries pings ping = PingOk n ->
    (pings <= n)%nat /\
    (if ping then n = pings
     else Z.of_nat n - Z.of_nat pings <= maxTries + 1 - tries /\
          answers (n - 1)%nat = true /\
          forall k, (pings <= k < n - 1)%nat -> answers k = false).
Proof.
  induction fuel as [|fuel IH]; intros tries pings ping n H; simpl in H.
  - destruct ping; [|discriminate]. inversion H. auto.
  - destruct ping; [inversion H; auto|].
    destruct (maxTries <? tries) eqn:E; [discriminate|].
    apply Z.ltb_ge in E.
    destruct (IH _ _ _ _ H) as [Hle Hrest].
    split; [lia|].
    destruct (answers pings) eqn:Hp.
    + subst n. replace (S pings - 1)%nat with pings by lia.
      split; [lia|]. split; [assumption|]. intros k Hk. lia.
    + destruct Hrest as (Hb & Hn & Hk). split; [lia|]. split; [assumption|].
      intros k Hk'. destruct (decide (k = pings)) as [->|]; [assumption|].
      apply Hk. lia.
Qed.

(** [pingSuccess(maxTries)] against a server that never answers sends
    [maxTries + 2] pings before it throws.  When it returns, the last
    ping sent is the first one that was answered, and it is among the first
    [maxTries + 2]. *)
Theorem pingSuccess_pings (maxTries : Z) (answers : nat -> bool) (fuel : nat) :
  0 <= maxTries -> (Z.to_nat maxTries + 2 <= fuel)%nat ->
  ((forall k, answers k = false) ->
   pingSuccess fuel maxTries answers = PingFailed (Z.to_nat maxTries + 2)) /\
  (forall n, pingSuccess fuel maxTries answers = PingOk n ->
             (1 <= n <= Z.to_nat maxTries + 2)%nat /\
             answers (n - 1)%nat = true /\
             forall k, (k < n - 1)%nat -> answers k = false).
Proof.
  intros Hmax Hfuel. unfold pingSuccess. split.
  - intros Hall. rewrite Hall.
    rewrite (pingLoop_all_fail maxTries answers fuel Hall 0 1) by lia.
    f_equal. lia.
  - intros n H. destruct (pingLoop_ok _ _ _ _ _ _ _ H) as [Hle Hrest].
    destruct (answers 0%nat) eqn:H0.
    + subst n. split; [lia|]. split; [exact H0|]. intros k Hk. lia.
    + destruct Hrest as (Hb & Hn & Hk). split; [lia|]. split; [exact Hn|].
      intros k Hk'. destruct (decide (k = 0%nat)) as [->|]; [assumption|].
      apply Hk. lia.
Qed.

Lemma pingSuccess_pings_witness :
  pingSuccess 20 10 (fun _ => false) = PingFailed 12 /\
  pingSuccess 20 10 (fun k => Nat.eqb k 3) = PingOk 4.
Proof.
  split; [|reflexivity].
  apply (proj1 (pingSuccess_pings 10 (fun _ => false) 20 ltac:(lia) ltac:(simpl; lia))).
  reflexivity.
Defined.

(** *** [queuePrompt] and [appendPrompt] *)

(** [appendPrompt] resolves exactly when the server answers with status
    200 and a body that parses as JSON; otherwise it rejects and dispatches
    [queue_error] once.  After a rejected [fetch] the value it rejects with
    is [undefined]: the error is replaced by its missing [response]
    property.  For another status it rejects with the response.  For a 200
    answer whose body does not parse it rejects with the parse error, and
    [queuePrompt] logs nothing: [response.json()] is returned without
    [await], past the [catch].  Position 0 is sent like position [null]:
    the body has neither [front] nor [number]. *)
Theorem appendPrompt_outcome {J W : Type} (r : FetchResult J) (c : State)
    (workflow : W) :
  ((exists json, (appendPrompt r).1 = Queued json) <->
   (exists json, r = Responded 200 (Some json))) /\
  (SigQueueError ∈ (appendPrompt r).2 <->
   exists e, (appendPrompt r).1 = QueueThrew e) /\
  (r = FetchRejected -> (appendPrompt r).1 = QueueThrew WithUndefined) /\
  (forall st body, st <> 200 -> r = Responded st body ->
                   (appendPrompt r).1 = QueueThrew (WithResponse st body)) /\
  (r = Responded 200 None ->
   appendPrompt r = (QueueThrew WithSyntaxError, [SigQueueError])) /\
  queuePromptBody c (Some 0) workflow = queuePromptBody c None workflow.
Proof.
  unfold appendPrompt, queuePrompt. repeat split.
  - intros [json H]. destruct r as [st [j|]|]; [| |discriminate].
    + destruct (st =? 200) eqn:E; [|discriminate].
      apply Z.eqb_eq in E. subst. eauto.
    + destruct (st =? 200); discriminate.
  - intros [json ->]. simpl. eauto.
  - destruct r as [st [j|]|]; [destruct (st =? 200)|destruct (st =? 200)|];
      simpl; eauto.
    intros H. apply elem_of_nil in H. destruct H.
  - intros [e H].
    destruct r as [st [j|]|]; [destruct (st =? 200)|destruct (st =? 200)|];
      simpl in *; try discriminate; set_solver.
  - intros ->. reflexivity.
  - intros st body Hst ->. apply Z.eqb_neq in Hst. by rewrite Hst.
  - intros ->. reflexivity.
Qed.

(** *** Listener bookkeeping *)

Lemma removeAll_keeps (l : Listener) (tr : list Listener) :
  forall ls, l ∈ ls -> l ∉ tr ->
             l ∈ foldl (fun ls x => removeEventListener x ls) ls tr.
Proof.
  induction tr as [|x tr IH]; intros ls Hin Hnot; simpl; [assumption|].
  apply not_elem_of_cons in Hnot as [Hne Hnot].
  apply IH; [|assumption].
  unfold removeEventListener. apply list_elem_of_filter. by split.
Qed.

Lemma removeAll_removes (l : Listener) (tr : list Listener) :
  forall ls, l ∈ tr -> l ∉ foldl (fun ls x => removeEventListener x ls) ls tr.
Proof.
  assert (Hgone : forall tr ls, l ∉ ls ->
                    l ∉ foldl (fun ls x => removeEventListener x ls) ls tr).
  { clear. induction tr as [|x tr IH]; intros ls H; simpl; [assumption|].
    apply IH. unfold removeEventListener. rewrite list_elem_of_filter. tauto. }
  induction tr as [|x tr IH]; intros ls Hin; [by apply elem_of_nil in Hin|].
  simpl. apply elem_of_cons in Hin as [->|Hin]; [|by apply IH].
  apply Hgone. unfold removeEventListener. rewrite list_elem_of_filter. tauto.
Qed.

(** [removeAllListeners] detaches every listener that is in the array
    [listeners].  But [off(type, callback)] drops from that array every
    entry with this event type or with this callback, not only the pair it
    detaches: another callback attached to the same event stays attached,
    and a later [removeAllListeners] does not detach it either. *)
Theorem off_forgets_other_listeners (h : Hub) (type : string)
    (callback other : nat) (capture capture' : bool) :
  other <> callback ->
  mkListener type other capture' ∈ attached h ->
  (forall l, l ∈ tracked h -> l ∉ attached (removeAllListeners h)) /\
  (mkListener type callback capture ∉ attached (off h type callback capture)) /\
  (mkListener type other capture' ∉ tracked (off h type callback capture)) /\
  mkListener type other capture'
  ∈ attached (removeAllListeners (off h type callback capture)).
Proof.
  intros Hne Hin. split; [|split; [|split]].
  - intros l Hl. simpl. by apply removeAll_removes.
  - simpl. unfold removeEventListener. rewrite list_elem_of_filter. tauto.
  - simpl. rewrite list_elem_of_filter. simpl. tauto.
  - simpl. apply removeAll_keeps.
    + unfold removeEventListener. apply list_elem_of_filter. split; [|assumption].
      intros H. inversion H. contradiction.
    + rewrite list_elem_of_filter. simpl. tauto.
Qed.

Lemma off_forgets_other_listeners_witness :
  let h := on (on (mkHub [] []) "status" 1 false) "status" 2 false in
  attached (removeAllListeners h) = [] /\
  attached (removeAllListeners (off h "status" 1 false))
  = [mkListener "status" 2 false] /\
  mkListener "status" 2 false
  ∈ attached (removeAllListeners (off h "status" 1 false)).
Proof.
  split; [vm_compute; reflexivity|]. split; [vm_compute; reflexivity|].
  apply (off_forgets_other_listeners
           (on (on (mkHub [] []) "status" 1 false) "status" 2 false)
           "status" 1 2 false false).
  - discriminate.
  - vm_compute. apply list_elem_of_In. simpl. auto.
Defined.

End ClientExtra.

(** ** More on the prompt builder *)

Module BuilderExtra.
Import Builder BuilderSpec.

(** *** Path encoding *)

Lemma replaceAll_occurs (c d : ascii) (s : string) :
  c <> d -> occurs c (replaceAll c d s) = false.
Proof.
  intros Hne. induction s as [|x s IH]; simpl; [reflexivity|].
  rewrite IH, orb_false_r.
  destruct (Ascii.eqb x c) eqn:E.
  - apply Ascii.eqb_neq. congruence.
  - exact E.
Qed.

Lemma replaceAll_back (c d : ascii) (s : string) :
  occurs d s = false -> replaceAll d c (replaceAll c d s) = s.
Proof.
  induction s as [|x s IH]; simpl; [reflexivity|].
  intros H. apply orb_false_iff in H as [Hx Hs]. rewrite (IH Hs). f_equal.
  destruct (Ascii.eqb x c) eqn:E.
  - rewrite Ascii.eqb_refl. apply Ascii.eqb_eq in E. congruence.
  - by rewrite Hx.
Qed.

Lemma replaceAll_length (c d : ascii) (s : string) :
  String.length (replaceAll c d s) = String.length s.
Proof. induction s as [|x s IH]; simpl; congruence. Qed.

(** [encodeNTPath] leaves no forward slash and [encodePosixPath] no
    backslash; both keep the length; and each undoes the other on a path
    that has none of the other's separator to begin with. *)
Theorem encode_paths (path : string) :
  occurs slash (encodeNTPath path) = false /\
  occurs backslash (encodePosixPath path) = false /\
  String.length (encodeNTPath path) = String.length path /\
  String.length (encodePosixPath path) = String.length path /\
  (occurs backslash path = false -> encodePosixPath (encodeNTPath path) = path) /\
  (occurs slash path = false -> encodeNTPath (encodePosixPath path) = path).
Proof.
  unfold encodeNTPath, encodePosixPath.
  repeat split; try apply replaceAll_length;
    try (apply replaceAll_occurs; discriminate); apply replaceAll_back.
Qed.

(** *** Writing and reading along a path *)

Lemma assign_Done (current : JValue) (k : string) (v : JValue) (tree' : JValue) :
  assign current k v = (tree', Done) ->
  exists m, current = JObject m /\ tree' = JObject (<[k:=v]> m).
Proof.
  unfold assign. destruct current as [| | | | | |m]; try discriminate.
  destruct (m !! k); [|destruct (String.eqb k "__proto__"); [discriminate|]];
    intros H; inversion H; eauto.
Qed.

Lemma writePath_cons (k k2 : string) (ks : list string) (v tree : JValue) :
  writePath (k :: k2 :: ks) v tree
  = match tree with
    | JObject m =>
        match m !! k with
        | Some child =>
            let '(child', st) :=
              writePath (k2 :: ks) v (if truthy child then child else JObject ∅) in
            (JObject (<[k:=child']> m), st)
        | None =>
            if inherited k then (tree, Outside)
            else let '(child', st) := writePath (k2 :: ks) v (JObject ∅) in
                 (JObject (<[k:=child']> m), st)
        end
    | _ => (tree, Outside)
    end.
Proof. reflexivity. Qed.

Lemma writePath_read_back (keys : list string) (v : JValue) :
  forall tree tree',
    keys <> [] -> writePath keys v tree = (tree', Done) ->
    getPath keys tree' = Some v.
Proof.
  induction keys as [|k ks IH]; intros tree tree' Hne H; [done|].
  destruct ks as [|k2 ks].
  - simpl in H. destruct (assign_Done _ _ _ _ H) as (m & -> & ->).
    simpl. by rewrite lookup_insert_eq.
  - rewrite writePath_cons in H. destruct tree as [| | | | | |m]; try discriminate.
    destruct (m !! k) as [child|].
    + destruct (writePath (k2 :: ks) v _) as [child' st] eqn:Hw.
      inversion H; subst. cbn [getPath]. rewrite lookup_insert_eq. simpl.
      eapply IH; [discriminate|exact Hw].
    + destruct (inherited k); [discriminate|].
      destruct (writePath (k2 :: ks) v _) as [child' st] eqn:Hw.
      inversion H; subst. cbn [getPath]. rewrite lookup_insert_eq. simpl.
      eapply IH; [discriminate|exact Hw].
Qed.

Lemma getPath_falsy (keys : list string) (child : JValue) :
  keys <> [] -> truthy child = false -> getPath keys child = None.
Proof.
  intros Hne Hf. destruct keys as [|k ks]; [done|].
  destruct child; try reflexivity. discriminate.
Qed.

Lemma getPath_empty (keys : list string) :
  keys <> [] -> getPath keys (JObject ∅) = None.
Proof. intros Hne. destruct keys as [|k ks]; [done|]. reflexivity. Qed.

Lemma writePath_first_key (k k' : string) (rest rest' : list string) (v : JValue)
    (tree : JValue) :
  k <> k' ->
  getPath (k' :: rest') (writePath (k :: rest) v tree).1 = getPath (k' :: rest') tree.
Proof.
  intros Hne. destruct rest as [|k2 rest].
  - simpl. unfold assign. destruct tree as [| | | | | |m]; try reflexivity.
    destruct (m !! k); [|destruct (String.eqb k "__proto__"); [reflexivity|]];
      simpl; by rewrite lookup_insert_ne.
  - rewrite writePath_cons. destruct tree as [| | | | | |m]; try reflexivity.
    destruct (m !! k) as [child|].
    + destruct (writePath (k2 :: rest) v _) as [child' st].
      simpl. by rewrite lookup_insert_ne.
    + destruct (inherited k); [reflexivity|].
      destruct (writePath (k2 :: rest) v _) as [child' st].
      simpl. by rewrite lookup_insert_ne.
Qed.

Lemma writePath_frame (common : list string) :
  forall (k k' : string) (rest rest' : list string) (v tree : JValue),
    k <> k' ->
    getPath (common ++ k' :: rest') (writePath (common ++ k :: rest) v tree).1
    = getPath (common ++ k' :: rest') tree.
Proof.
  induction common as [|c cs IH]; intros k k' rest rest' v tree Hne.
  - by apply writePath_first_key.
  - simpl app. destruct (cs ++ k :: rest) as [|k2 ks] eqn:Hks.
    { by destruct cs. }
    rewrite writePath_cons. destruct tree as [| | | | | |m]; try reflexivity.
    assert (Hne' : cs ++ k' :: rest' <> []) by (by destruct cs).
    destruct (m !! c) as [child|] eqn:Hc.
    + pose proof (IH k k' rest rest' v (if truthy child then child else JObject ∅) Hne)
        as IH'.
      rewrite Hks in IH'.
      destruct (writePath (k2 :: ks) v _) as [child' st].
      cbn [fst getPath]. rewrite lookup_insert_eq, Hc. simpl in IH' |- *.
      rewrite IH'. destruct (truthy child) eqn:Ht; [reflexivity|].
      rewrite getPath_empty by assumption. symmetry. by apply getPath_falsy.
    + destruct (inherited c); [reflexivity|].
      pose proof (IH k k' rest rest' v (JObject ∅) Hne) as IH'.
      rewrite Hks in IH'.
      destruct (writePath (k2 :: ks) v _) as [child' st].
      cbn [fst getPath]. rewrite lookup_insert_eq, Hc. simpl in IH' |- *.
      rewrite IH'. by apply getPath_empty.
Qed.

Lemma writePath_empty (keys : list string) (v : JValue) :
  keys <> [] -> Forall (fun k => inherited k = false) keys ->
  writePath keys v (JObject ∅) = (nested keys v, Done).
Proof.
  induction keys as [|k ks IH]; intros Hne Hk; [done|].
  inversion Hk as [|? ? Hk1 Hk2]; subst.
  destruct ks as [|k2 ks].
  - simpl. unfold assign. rewrite lookup_empty.
    destruct (String.eqb k "__proto__") eqn:E; [|reflexivity].
    apply String.eqb_eq in E. subst. discriminate.
  - rewrite writePath_cons. rewrite lookup_empty, Hk1.
    rewrite IH by (try discriminate; assumption). reflexivity.
Qed.

(** The path loop of [input]: when the walk stays inside the tree, the
    value can be read back at the path, and what was readable at any path
    that branches off from the written one is as before (this holds even
    when the walk leaves the tree).  On an empty object, for keys that no
    object inherits, the walk builds the nested objects down to the
    value. *)
Theorem writePath_fidelity (keys : list string) (v : JValue) (tree tree' : JValue) :
  keys <> [] ->
  writePath keys v tree = (tree', Done) ->
  getPath keys tree' = Some v /\
  (forall common k k' rest rest',
      keys = common ++ k :: rest -> k <> k' ->
      getPath (common ++ k' :: rest') tree' = getPath (common ++ k' :: rest') tree) /\
  (Forall (fun k => inherited k = false) keys ->
   writePath keys v (JObject ∅) = (nested keys v, Done)).
Proof.
  intros Hne Hw. split; [by eapply writePath_read_back|]. split.
  - intros common k k' rest rest' -> Hk.
    pose proof (writePath_frame common k k' rest rest' v tree Hk) as H.
    by rewrite Hw in H.
  - by apply writePath_empty.
Qed.

Lemma writePath_fidelity_witness :
  let tree := JObject {[ "4"%string := JObject {[ "class_type"%string := JString "L" ]};
                         "5"%string := JNumber 1 ]} in
  let tree' := (writePath ["4"; "inputs"; "ckpt_name"]%string (JString "m") tree).1 in
  getPath ["4"; "inputs"; "ckpt_name"]%string tree' = Some (JString "m") /\
  getPath ["4"; "class_type"]%string tree' = Some (JString "L") /\
  getPath ["5"]%string tree' = Some (JNumber 1).
Proof.
  assert (H : exists tree',
             writePath ["4"; "inputs"; "ckpt_name"]%string (JString "m")
               (JObject {[ "4"%string := JObject {[ "class_type"%string := JString "L" ]};
                           "5"%string := JNumber 1 ]}) = (tree', Done))
    by (eexists; vm_compute; reflexivity).
  destruct H as [t' Ht']. cbv zeta. rewrite Ht'. simpl fst.
  destruct (writePath_fidelity ["4"; "inputs"; "ckpt_name"]%string (JString "m") _ t'
              ltac:(discriminate) Ht') as (Hread & Hframe & _).
  split; [exact Hread|]. split.
  - pose proof (Hframe ["4"%string] "inputs"%string "class_type"%string
                       ["ckpt_name"%string] [] eq_refl ltac:(discriminate)) as H1.
    cbn [app] in H1. rewrite H1. vm_compute. reflexivity.
  - pose proof (Hframe [] "4"%string "5"%string ["inputs"; "ckpt_name"]%string []
                       eq_refl ltac:(discriminate)) as H2.
    cbn [app] in H2. rewrite H2. vm_compute. reflexivity.
Defined.

(** *** [input] on a bound name *)




(** *** [inputRaw] *)

Lemma writePathRaw_cons (k k2 : string) (ks : list string) (v tree : JValue) :
  writePathRaw (k :: k2 :: ks) v tree
  = if skipped k then writePathRaw (k2 :: ks) v tree
    else match tree with
         | JObject m =>
             match m !! k with
             | Some child =>
                 let '(child', st) :=
                   writePathRaw (k2 :: ks) v
                                (if truthy child then child else JObject ∅) in
                 (JObject (<[k:=child']> m), st)
             | None =>
                 if inherited k then (tree, Outside)
                 else let '(child', st) := writePathRaw (k2 :: ks) v (JObject ∅) in
                      (JObject (<[k:=child']> m), st)
             end
         | _ => (tree, Outside)
         end.
Proof. reflexivity. Qed.

Lemma writePathRaw_filter (init : list string) :
  forall (last : string) (v tree : JValue),
    skipped last = false ->
    writePathRaw (init ++ [last]) v tree
    = writePath (filter (fun k => skipped k = false) init ++ [last]) v tree.
Proof.
  induction init as [|k init IH]; intros last v tree Hlast.
  - simpl. by rewrite Hlast.
  - simpl app. destruct (init ++ [last]) as [|k2 ks] eqn:Hks; [by destruct init|].
    rewrite writePathRaw_cons. destruct (skipped k) eqn:Hk.
    + rewrite filter_cons_False by (rewrite Hk; discriminate).
      rewrite <- Hks. by apply IH.
    + rewrite filter_cons_True by assumption. simpl app.
      destruct (filter (fun k => skipped k = false) init ++ [last])
        as [|f2 fs] eqn:Hfs; [by destruct (filter _ init)|].
      rewrite writePath_cons.
      destruct tree as [| | | | | |m]; try reflexivity.
      rewrite <- Hks, <- Hfs.
      destruct (m !! k) as [child|]; [|destruct (inherited k); [reflexivity|]];
        by rewrite IH.
Qed.

Lemma writePathRaw_all_skipped (keys : list string) (v tree : JValue) :
  Forall (fun k => skipped k = true) keys -> writePathRaw keys v tree = (tree, Done).
Proof.
  induction keys as [|k ks IH]; intros H; [reflexivity|].
  inversion H as [|? ? Hk Hks]; subst.
  destruct ks as [|k2 ks]; [simpl; by rewrite Hk|].
  rewrite writePathRaw_cons, Hk. by apply IH.
Qed.

(** The path loop of [inputRaw] treats a key as if its [__proto__] and
    [constructor] segments were not there: when the last segment is
    neither of the two, it writes exactly what the loop of [input] writes
    for the path without those segments; when every segment is one of the
    two, it writes nothing. *)
Theorem inputRaw_skips_segments (init : list string) (last : string)
    (v tree : JValue) :
  (skipped last = false ->
   writePathRaw (init ++ [last]) v tree
   = writePath (filter (fun k => skipped k = false) init ++ [last]) v tree) /\
  (Forall (fun k => skipped k = true) (init ++ [last]) ->
   writePathRaw (init ++ [last]) v tree = (tree, Done)).
Proof.
  split; [apply writePathRaw_filter|apply writePathRaw_all_skipped].
Qed.

(** *** [bypass] and [reinstate] *)

Lemma findIndex_absent (node : string) (arr : list string) :
  node ∉ arr -> findIndex (String.eqb node) arr = None.
Proof.
  induction arr as [|x arr IH]; intros H; [reflexivity|].
  apply not_elem_of_cons in H as [Hne Hnot]. simpl.
  destruct (String.eqb node x) eqn:E; [apply String.eqb_eq in E; congruence|].
  by rewrite IH.
Qed.

Lemma findIndex_first (node : string) (l1 l2 : list string) :
  node ∉ l1 -> findIndex (String.eqb node) (l1 ++ node :: l2) = Some (length l1).
Proof.
  induction l1 as [|x l1 IH]; intros H; simpl.
  - by rewrite String.eqb_refl.
  - apply not_elem_of_cons in H as [Hne Hnot].
    destruct (String.eqb node x) eqn:E; [apply String.eqb_eq in E; congruence|].
    by rewrite IH.
Qed.

Lemma spliceOut_present (node : string) (l1 l2 : list string) :
  node ∉ l1 -> spliceOut (l1 ++ node :: l2) node = l1 ++ l2.
Proof.
  intros H. unfold spliceOut. rewrite (findIndex_first node l1 l2 H).
  induction l1 as [|x l1 IH]; [reflexivity|].
  apply not_elem_of_cons in H as [_ H]. simpl. f_equal. by apply IH.
Qed.

(** The removal step of [reinstate]: a node that is in the array loses
    its first occurrence; for a node that is not in the array the last
    element of the array is removed instead. *)
Theorem spliceOut_cases (arr : list string) (node : string) :
  (forall l1 l2, arr = l1 ++ node :: l2 -> node ∉ l1 ->
                 spliceOut arr node = l1 ++ l2) /\
  (node ∉ arr -> spliceOut arr node = take (length arr - 1) arr) /\
  (forall l x, node ∉ l ++ [x] -> spliceOut (l ++ [x]) node = l).
Proof.
  split; [|split].
  - intros l1 l2 -> H. by apply spliceOut_present.
  - intros H. unfold spliceOut. by rewrite findIndex_absent.
  - intros l x H. unfold spliceOut. rewrite findIndex_absent by assumption.
    rewrite length_app. simpl.
    replace (length l + 1 - 1)%nat with (length l) by lia.
    by rewrite take_app_length.
Qed.

Lemma reinstate_after_bypass (nodes : list string) :
  forall l, NoDup nodes -> (forall n, n ∈ nodes -> n ∉ l) ->
            foldl spliceOut (l ++ nodes) nodes = l.
Proof.
  induction nodes as [|n nodes IH]; intros l Hnd Hfresh; simpl.
  - by rewrite app_nil_r.
  - apply NoDup_cons in Hnd as [Hn Hnd].
    rewrite spliceOut_present by (apply Hfresh; left).
    apply IH; [assumption|]. intros x Hx. apply Hfresh. by right.
Qed.

Lemma bypass_exact (s : Store) (this : loc) (B : PromptBuilder) (tree : JValue)
    (nodes : list string) :
  builders s !! this = Some B -> objects s !! prompt B = Some tree ->
  bypass s this nodes
  = (mkStore (<[fresh (dom (objects s)):=tree]> (objects s)) (arrays s)
             (<[fresh (dom (builders s)):=
                  mkBuilder (fresh (dom (objects s))) (mapInputKeys B) (mapOutputKeys B)
                            (bypassNodes B ++ nodes)]> (builders s)),
     Returned (fresh (dom (builders s)))).
Proof.
  intros HB Ht. unfold bypass, clone, new_PromptBuilder. rewrite HB, Ht. simpl.
  rewrite lookup_insert_eq. simpl. rewrite lookup_insert_eq.
  unfold setBuilder. simpl. by rewrite !insert_insert_eq.
Qed.

Lemma reinstate_exact (s : Store) (this : loc) (B : PromptBuilder) (tree : JValue)
    (nodes : list string) :
  builders s !! this = Some B -> objects s !! prompt B = Some tree ->
  reinstate s this nodes
  = (mkStore (<[fresh (dom (objects s)):=tree]> (objects s)) (arrays s)
             (<[fresh (dom (builders s)):=
                  mkBuilder (fresh (dom (objects s))) (mapInputKeys B) (mapOutputKeys B)
                            (foldl spliceOut (bypassNodes B) nodes)]> (builders s)),
     Returned (fresh (dom (builders s)))).
Proof.
  intros HB Ht. unfold reinstate, clone, new_PromptBuilder. rewrite HB, Ht. simpl.
  rewrite lookup_insert_eq. simpl. rewrite lookup_insert_eq.
  unfold setBuilder. simpl. by rewrite !insert_insert_eq.
Qed.

(** [reinstate] undoes [bypass]: bypassing distinct nodes that were not
    bypassed before and then reinstating the same nodes gives a builder
    that shows exactly what the first builder shows. *)
Theorem bypass_reinstate_round_trip (s : Store) (this : loc) (B : PromptBuilder)
    (tree : JValue) (nodes : list string) :
  builders s !! this = Some B -> objects s !! prompt B = Some tree ->
  NoDup nodes -> (forall n, n ∈ nodes -> n ∉ bypassNodes B) ->
  exists s1 b1 s2 b2,
    bypass s this nodes = (s1, Returned b1) /\
    reinstate s1 b1 nodes = (s2, Returned b2) /\
    view s2 b2 = view s this /\ view s2 this = view s this.
Proof.
  intros HB Ht Hnd Hfresh.
  pose proof (bypass_exact s this B tree nodes HB Ht) as Hb.
  set (p1 := fresh (dom (objects s))) in *.
  set (b1 := fresh (dom (builders s))) in *.
  set (s1 := mkStore (<[p1:=tree]> (objects s)) (arrays s)
                     (<[b1:=mkBuilder p1 (mapInputKeys B) (mapOutputKeys B)
                                      (bypassNodes B ++ nodes)]> (builders s))) in *.
  assert (Hb1 : builders s1 !! b1
                = Some (mkBuilder p1 (mapInputKeys B) (mapOutputKeys B)
                                  (bypassNodes B ++ nodes)))
    by apply lookup_insert_eq.
  assert (Hp1 : objects s1 !! p1 = Some tree) by apply lookup_insert_eq.
  pose proof (reinstate_exact s1 b1 _ tree nodes Hb1 Hp1) as Hr.
  simpl in Hr. rewrite (reinstate_after_bypass nodes _ Hnd Hfresh) in Hr.
  eexists _, _, _, _. split; [exact Hb|]. split; [exact Hr|].
  assert (Hnb : builders s !! b1 = None) by apply fresh_lookup.
  assert (Hnp : objects s !! p1 = None) by apply fresh_lookup.
  assert (Hne1 : b1 <> this) by congruence.
  assert (Hne2 : p1 <> prompt B) by congruence.
  split.
  - unfold view. simpl. rewrite lookup_insert_eq, HB. simpl.
    rewrite lookup_insert_eq, Ht. reflexivity.
  - unfold view. simpl.
    assert (Hb2 : fresh (dom (<[b1:=mkBuilder p1 (mapInputKeys B) (mapOutputKeys B)
                                  (bypassNodes B ++ nodes)]> (builders s))) <> this).
    { intros Heq.
      pose proof (fresh_lookup (<[b1:=mkBuilder p1 (mapInputKeys B) (mapOutputKeys B)
                                    (bypassNodes B ++ nodes)]> (builders s))) as Hf.
      rewrite Heq, lookup_insert_ne, HB in Hf by done. discriminate. }
    assert (Hp2 : fresh (dom (<[p1:=tree]> (objects s))) <> prompt B).
    { intros Heq.
      pose proof (fresh_lookup (<[p1:=tree]> (objects s))) as Hf.
      rewrite Heq, lookup_insert_ne, Ht in Hf by done. discriminate. }
    rewrite !lookup_insert_ne by done. rewrite HB. simpl.
    rewrite !lookup_insert_ne by done. reflexivity.
Qed.

Lemma bypass_reinstate_round_trip_witness :
  let s0 := mkStore {[ 0%nat := JObject {[ "4"%string := JObject ∅ ]} ]} ∅ ∅ in
  let s1 := (new_PromptBuilder s0 0%nat ["x"%string] []).1 in
  let s2 := (bypass s1 0%nat ["9"%string]).1 in
  exists s3 b1 s4 b2,
    bypass s2 1%nat ["4"; "7"]%string = (s3, Returned b1) /\
    reinstate s3 b1 ["4"; "7"]%string = (s4, Returned b2) /\
    view s4 b2 = view s2 1%nat /\ view s4 1%nat = view s2 1%nat.
Proof.
  cbv zeta.
  eapply (bypass_reinstate_round_trip _ 1%nat
            (mkBuilder 2%nat {[ "x"%string := BUndefined ]} ∅ ["9"%string])
            (JObject {[ "4"%string := JObject ∅ ]}) ["4"; "7"]%string).
  - vm_compute. reflexivity.
  - vm_compute. reflexivity.
  - repeat (apply NoDup_cons; split); try apply NoDup_nil_2;
      rewrite list_elem_of_In; simpl; intuition discriminate.
  - intros n Hn. simpl. rewrite list_elem_of_In in Hn |- *. simpl in *.
    intuition (subst; discriminate).
Defined.

(** *** Shared arrays of paths *)

Lemma clone_exact (s : Store) (this : loc) (B : PromptBuilder) (tree : JValue) :
  builders s !! this = Some B -> objects s !! prompt B = Some tree ->
  clone s this
  = (mkStore (<[fresh (dom (objects s)):=tree]> (objects s)) (arrays s)
             (<[fresh (dom (builders s)):=
                  mkBuilder (fresh (dom (objects s))) (mapInputKeys B) (mapOutputKeys B)
                            (bypassNodes B)]> (builders s)),
     Returned (fresh (dom (builders s)))).
Proof.
  intros HB Ht. unfold clone, new_PromptBuilder. rewrite HB, Ht. simpl.
  rewrite lookup_insert_eq. unfold setBuilder. simpl. by rewrite insert_insert_eq.
Qed.

(** A clone is not independent of its original where a name is bound to an
    array of paths: the two builders hold the same array, and
    [appendInputNode] on the clone extends what the original shows for that
    name. *)
Theorem clone_shares_path_arrays (s : Store) (this : loc) (B : PromptBuilder)
    (tree : JValue) (name : string) (a : loc) (old : list string) (path : string) :
  builders s !! this = Some B -> objects s !! prompt B = Some tree ->
  mapInputKeys B !! name = Some (BArray a) -> arrays s !! a = Some old ->
  exists s1 nb s2 nb2,
    clone s this = (s1, Returned nb) /\ nb <> this /\
    appendInputNode s1 nb name (KString path) = (s2, Returned nb2) /\
    viewInput s this name = Some (VArray (Some old)) /\
    viewInput s2 this name = Some (VArray (Some (old ++ [path]))).
Proof.
  intros HB Ht Hname Ha.
  pose proof (clone_exact s this B tree HB Ht) as Hc.
  set (p1 := fresh (dom (objects s))) in *.
  set (nb := fresh (dom (builders s))) in *.
  set (NB := mkBuilder p1 (mapInputKeys B) (mapOutputKeys B) (bypassNodes B)) in *.
  set (s1 := mkStore (<[p1:=tree]> (objects s)) (arrays s) (<[nb:=NB]> (builders s)))
    in *.
  assert (Hnb : builders s !! nb = None) by apply fresh_lookup.
  assert (Hne : nb <> this) by congruence.
  set (s1' := setArray s1 a (old ++ [path])).
  assert (HNB : builders s1' !! nb = Some NB) by apply lookup_insert_eq.
  assert (Hp1 : objects s1' !! prompt NB = Some tree) by apply lookup_insert_eq.
  pose proof (clone_exact s1' nb NB tree HNB Hp1) as Hc2.
  assert (Happ : appendInputNode s1 nb name (KString path) = clone s1' nb).
  { unfold appendInputNode.
    replace (builders s1 !! nb) with (Some NB) by (symmetry; apply lookup_insert_eq).
    simpl. rewrite Hname. simpl. rewrite Ha. reflexivity. }
  eexists _, _, _, _. split; [exact Hc|]. split; [exact Hne|].
  split; [rewrite Happ; exact Hc2|]. split.
  - unfold viewInput. rewrite HB. simpl. rewrite Hname. simpl. by rewrite Ha.
  - unfold viewInput. simpl.
    assert (Hnb2 : fresh (dom (<[nb:=NB]> (builders s))) <> this).
    { intros Heq. pose proof (fresh_lookup (<[nb:=NB]> (builders s))) as Hf.
      rewrite Heq, lookup_insert_ne, HB in Hf by done. discriminate. }
    rewrite !lookup_insert_ne by done. rewrite HB. simpl. rewrite Hname. simpl.
    by rewrite lookup_insert_eq.
Qed.

Lemma clone_shares_path_arrays_witness :
  let s0 := mkStore {[ 0%nat := JObject ∅ ]} {[ 0%nat := ["4.inputs.a"%string] ]} ∅ in
  let s1 := (new_PromptBuilder s0 0%nat ["x"%string] []).1 in
  let s2 := (setInputNode s1 0%nat "x" (KArray 0%nat)).1 in
  exists s3 nb s4 nb2,
    clone s2 0%nat = (s3, Returned nb) /\ nb <> 0%nat /\
    appendInputNode s3 nb "x" (KString "5.inputs.b") = (s4, Returned nb2) /\
    viewInput s2 0%nat "x" = Some (VArray (Some ["4.inputs.a"%string])) /\
    viewInput s4 0%nat "x"
    = Some (VArray (Some (["4.inputs.a"%string] ++ ["5.inputs.b"%string]))).
Proof.
  cbv zeta.
  eapply (clone_shares_path_arrays _ 0%nat
            (mkBuilder 1%nat {[ "x"%string := BArray 0%nat ]} ∅ [])
            (JObject ∅) "x" 0%nat ["4.inputs.a"%string] "5.inputs.b");
    vm_compute; reflexivity.
Defined.

(** *** [appendInputNode] on a name without an array *)

(** [appendInputNode] with a single path, on a builder whose workflow
    object exists: for a name whose binding is still [undefined] nothing is
    appended, receiver and returned builder both keep the binding
    [undefined]; for a name bound to one path the binding becomes a new
    array of the old path and the appended one. *)
Theorem appendInputNode_bindings (s : Store) (this : loc) (B : PromptBuilder)
    (tree : JValue) (name path : string) :
  builders s !! this = Some B -> objects s !! prompt B = Some tree ->
  (mapInputKeys B !! name = Some BUndefined ->
   exists s' nb,
     appendInputNode s this name (KString path) = (s', Returned nb) /\
     viewInput s' this name = Some VUndefined /\
     viewInput s' nb name = Some VUndefined) /\
  (forall old, mapInputKeys B !! name = Some (BString old) ->
   exists s' nb,
     appendInputNode s this name (KString path) = (s', Returned nb) /\
     viewInput s' this name = Some (VArray (Some [old; path])) /\
     viewInput s' nb name = Some (VArray (Some [old; path]))).
Proof.
  intros HB Ht. split.
  - intros Hname. pose proof (clone_exact s this B tree HB Ht) as Hc.
    eexists _, _. split.
    { unfold appendInputNode. rewrite HB. simpl. rewrite Hname. exact Hc. }
    assert (Hnb : builders s !! fresh (dom (builders s)) = None) by apply fresh_lookup.
    assert (Hne : fresh (dom (builders s)) <> this) by congruence.
    unfold viewInput. simpl. split.
    + rewrite lookup_insert_ne, HB by done. simpl. by rewrite Hname.
    + rewrite lookup_insert_eq. simpl. by rewrite Hname.
  - intros old Hname.
    set (a := fresh (dom (arrays s))).
    set (B' := mkBuilder (prompt B) (<[name:=BArray a]> (mapInputKeys B))
                         (mapOutputKeys B) (bypassNodes B)).
    set (s1 := setBuilder (mkStore (objects s) (<[a:=[old; path]]> (arrays s))
                                   (builders s)) this B').
    assert (HB' : builders s1 !! this = Some B') by apply lookup_insert_eq.
    pose proof (clone_exact s1 this B' tree HB' Ht) as Hc.
    eexists _, _. split.
    { unfold appendInputNode. rewrite HB. simpl. rewrite Hname. simpl. exact Hc. }
    assert (Hnb : builders s1 !! fresh (dom (builders s1)) = None) by apply fresh_lookup.
    assert (Hne : fresh (dom (builders s1)) <> this) by congruence.
    unfold viewInput. simpl. split.
    + rewrite lookup_insert_ne, lookup_insert_eq by done. simpl.
      rewrite lookup_insert_eq. simpl. by rewrite lookup_insert_eq.
    + rewrite lookup_insert_eq. simpl.
      rewrite lookup_insert_eq. simpl. by rewrite lookup_insert_eq.
Qed.

Lemma appendInputNode_bindings_witness :
  let s0 := mkStore {[ 0%nat := JObject ∅ ]} ∅ ∅ in
  let s1 := (new_PromptBuilder s0 0%nat ["x"%string] []).1 in
  exists s' nb,
    appendInputNode s1 0%nat "x" (KString "4.inputs.a") = (s', Returned nb) /\
    viewInput s' 0%nat "x" = Some VUndefined /\
    viewInput s' nb "x" = Some VUndefined.
Proof.
  cbv zeta.
  eapply (proj1 (appendInputNode_bindings _ 0%nat
                   (mkBuilder 1%nat {[ "x"%string := BUndefined ]} ∅ [])
                   (JObject ∅) "x" "4.inputs.a" _ _)).
  Unshelve. all: vm_compute; reflexivity.
Defined.

(** *** A new builder *)

Lemma declared_undefined (keys : list string) :
  forall (m : gmap string Binding) (k : string) (b : Binding),
    (forall k' b', m !! k' = Some b' -> b' = BUndefined) ->
    foldl (fun m key => <[key:=BUndefined]> m) m keys !! k = Some b ->
    b = BUndefined.
Proof.
  induction keys as [|key keys IH]; intros m k b Hm H; simpl in H; [by eapply Hm|].
  eapply IH; [|exact H]. intros k' b' Hk'.
  destruct (decide (key = k')) as [->|Hne].
  - rewrite lookup_insert_eq in Hk'. congruence.
  - rewrite lookup_insert_ne in Hk' by done. by eapply Hm.
Qed.

(** A builder fresh from the constructor works on a copy: its workflow
    equals the caller's, lives in another object, and the caller's object
    is untouched.  None of its declared input names is bound yet, so
    [input] with a value throws [Key not found] for every name (declared
    or not) and changes nothing. *)
Theorem new_builder_is_unbound (s s' : Store) (w : loc) (ik ok : list string)
    (b : loc) (key : string) (value : JValue) (encodeOs : option OSType) :
  new_PromptBuilder s w ik ok = (s', Returned b) ->
  value <> JUndefined -> inherited key = false ->
  workflow s' b = objects s !! w /\
  (prompt <$> builders s' !! b) <> Some w /\
  objects s' !! w = objects s !! w /\
  input s' b key value encodeOs = (s', Threw (KeyNotFound key)).
Proof.
  unfold new_PromptBuilder. destruct (objects s !! w) as [tree|] eqn:Hw; [|discriminate].
  simpl. intros H Hval Hinh. inversion H; subst. clear H.
  assert (Hp : fresh (dom (objects s)) <> w).
  { intros Heq. pose proof (fresh_lookup (objects s)) as Hf. congruence. }
  split; [|split; [|split]].
  - unfold workflow. simpl. rewrite lookup_insert_eq. simpl.
    by rewrite lookup_insert_eq.
  - simpl. rewrite lookup_insert_eq. simpl. congruence.
  - simpl. by rewrite lookup_insert_ne.
  - unfold input. simpl. rewrite lookup_insert_eq.
    assert (Hpaths : forall st B0,
               mapInputKeys B0
               = foldl (fun m key => <[key:=BUndefined]> m) ∅
                       (filter (fun key => key <> "__proto__"%string) ik) ->
               pathsOf st B0 key = Threw (KeyNotFound key)).
    { intros st B0 HB0. unfold pathsOf. rewrite HB0.
      destruct (foldl _ _ _ !! key) as [bd|] eqn:E.
      - apply declared_undefined in E; [by subst|].
        intros k' b'. by rewrite lookup_empty.
      - by rewrite Hinh. }
    rewrite Hpaths by reflexivity.
    destruct value; try reflexivity. congruence.
Qed.

Lemma new_builder_is_unbound_witness :
  let s0 := mkStore {[ 0%nat := JObject {[ "4"%string := JObject ∅ ]} ]} ∅ ∅ in
  let s1 := (new_PromptBuilder s0 0%nat ["x"%string] []).1 in
  workflow s1 0%nat = Some (JObject {[ "4"%string := JObject ∅ ]}) /\
  input s1 0%nat "x" (JNumber 7) None = (s1, Threw (KeyNotFound "x")).
Proof.
  cbv zeta.
  destruct (new_builder_is_unbound
              (mkStore {[ 0%nat := JObject {[ "4"%string := JObject ∅ ]} ]} ∅ ∅)
              (new_PromptBuilder
                 (mkStore {[ 0%nat := JObject {[ "4"%string := JObject ∅ ]} ]} ∅ ∅)
                 0%nat ["x"%string] []).1
              0%nat ["x"%string] [] 0%nat "x" (JNumber 7) None)
    as (Hwf & _ & _ & Hin).
  - vm_compute. reflexivity.
  - discriminate.
  - reflexivity.
  - split; [rewrite Hwf; vm_compute; reflexivity|exact Hin].
Defined.

End BuilderExtra.
